(** * Wake-word detection of YUI ([yui_io/wake.py])

    A shallow embedding of the module's functions and the proofs of its
    specification.

    Python values are modelled as follows.
    - A [str] is a list of characters, a character being a code point below
      256 (the Latin-1 block), carried by Rocq's [ascii].  The tables of the
      built-ins that depend on the Unicode database ([str.isspace],
      [str.lower], the class [\w] of [re]) are CPython's, restricted to that
      block; they are listed in [isspace_codes], [lower_char_codes] and
      [isword_codes].
    - A pattern of [re] is a term of [Re.regex], matched by a backtracking
      matcher with the priorities of [re]: the first alternative first,
      the longest repetition first.
    - [Optional[str]] is [option pystr]; [None] and the empty string are the
      two falsy values.
    - The process environment read by [os.getenv] is a finite map from
      variable names to strings.
    - The speech-to-text collaborator [yui_io.stt.listen] is an external
      call: a program is a tree whose nodes are the calls of [listen]. *)

From Stdlib Require Import Ascii String ZArith Lia Sorted.
From stdpp Require Import gmap strings list.

Set Default Proof Using "Type".

(** ** Python strings *)

Module PyStr.

Abbreviation pystr := (list ascii).

(** A literal. *)
Definition py (s : string) : pystr := list_ascii_of_string s.

Definition code (c : ascii) : N := N_of_ascii c.

Definition in_range (lo hi : N) (c : ascii) : bool :=
  ((lo <=? code c) && (code c <=? hi))%N.

(** [str.isspace] on one character: TAB..CR, FS..US, SPACE, NEL, NBSP. *)
Definition isspace (c : ascii) : bool :=
  in_range 9 13 c || in_range 28 31 c || (code c =? 32)%N
  || (code c =? 133)%N || (code c =? 160)%N.

(** [str.lower] on one character: A..Z and the capital letters
    U+00C0..U+00DE (the sign U+00D7 excepted) move up by 32. *)
Definition lower_char (c : ascii) : ascii :=
  if in_range 65 90 c
     || (in_range 192 222 c && negb (code c =? 215)%N)
  then ascii_of_N (code c + 32)
  else c.

(** The class [\w] of a [str] pattern: [str.isalnum] or the underscore. *)
Definition isalnum (c : ascii) : bool :=
  in_range 48 57 c || in_range 65 90 c || in_range 97 122 c
  || (code c =? 170)%N || (code c =? 178)%N || (code c =? 179)%N
  || (code c =? 181)%N || (code c =? 185)%N || (code c =? 186)%N
  || in_range 188 190 c
  || in_range 192 214 c || in_range 216 246 c || in_range 248 255 c.

Definition isword (c : ascii) : bool := isalnum c || (code c =? 95)%N.

(** [s.lower()] *)
Definition lower (s : pystr) : pystr := map lower_char s.

(** [s.lstrip()], [s.rstrip()], [s.strip()] *)
Fixpoint lstrip (s : pystr) : pystr :=
  match s with
  | c :: s' => if isspace c then lstrip s' else s
  | [] => []
  end.

Fixpoint rstrip (s : pystr) : pystr :=
  match s with
  | c :: s' =>
      match rstrip s' with
      | [] => if isspace c then [] else [c]
      | r => c :: r
      end
  | [] => []
  end.

Definition strip (s : pystr) : pystr := rstrip (lstrip s).

(** [s.split()]: the maximal runs of non-space characters.  [cur] is the
    token being read. *)
Fixpoint split_from (cur : pystr) (s : pystr) : list pystr :=
  match s with
  | c :: s' =>
      if isspace c
      then match cur with
           | [] => split_from [] s'
           | _ => cur :: split_from [] s'
           end
      else split_from (cur ++ [c]) s'
  | [] => match cur with [] => [] | _ => [cur] end
  end.

Definition split (s : pystr) : list pystr := split_from [] s.

(** [s.startswith(w)] *)
Fixpoint startswith (s w : pystr) : bool :=
  match w, s with
  | [], _ => true
  | a :: w', c :: s' => bool_decide (a = c) && startswith s' w'
  | _ :: _, [] => false
  end.

(** [w in s] for two strings: [w] occurs at some position of [s]. *)
Fixpoint contains (s w : pystr) : bool :=
  startswith s w
  || match s with
     | _ :: s' => contains s' w
     | [] => false
     end.

(** Truth value of an [Optional[str]]. *)
Definition truthy (o : option pystr) : bool :=
  match o with
  | Some (_ :: _) => true
  | _ => false
  end.

(** [o or ""] *)
Definition or_empty (o : option pystr) : pystr :=
  match o with
  | Some s => s
  | None => []
  end.

End PyStr.

Import PyStr.

(** ** The fragment of [re] the module uses *)

Module Re.

(** Patterns.  Repetition is only ever applied to a character class. *)
Inductive regex : Type :=
| Eps                                (* the empty pattern *)
| Lit (w : pystr)                    (* [re.escape(w)] *)
| Cls (p : ascii -> bool)            (* [\s], [[:,]], ... *)
| Bnd                                (* [\b] *)
| Seq (r1 r2 : regex)
| Alt (r1 r2 : regex)                (* [r1|r2], [r1] tried first *)
| Opt (r : regex)                    (* [r?], greedy *)
| StarCls (p : ascii -> bool).       (* [[...]*], greedy *)

Definition PlusCls (p : ascii -> bool) : regex := Seq (Cls p) (StarCls p).

(** [\b] between the character before the position ([None] at the start
    of the string) and the rest of the string. *)
Definition isword_opt (o : option ascii) : bool :=
  match o with
  | Some c => isword c
  | None => false
  end.

Definition word_boundary (prev : option ascii) (s : pystr) : bool :=
  xorb (isword_opt prev) (isword_opt (head s)).

Section Matcher.
Context {R : Type}.

(** The continuation receives the character before the new position and
    the rest of the string; [None] makes the matcher backtrack. *)
Definition cont : Type := option ascii -> pystr -> option R.

Fixpoint match_lit (w : pystr) (prev : option ascii) (s : pystr) (k : cont)
  : option R :=
  match w, s with
  | [], _ => k prev s
  | a :: w', c :: s' => if bool_decide (a = c) then match_lit w' (Some c) s' k else None
  | _ :: _, [] => None
  end.

Fixpoint match_star (p : ascii -> bool) (prev : option ascii) (s : pystr) (k : cont)
  : option R :=
  match s with
  | c :: s' =>
      if p c
      then match match_star p (Some c) s' k with
           | Some x => Some x
           | None => k prev s
           end
      else k prev s
  | [] => k prev s
  end.

Fixpoint match_re (r : regex) (prev : option ascii) (s : pystr) (k : cont)
  : option R :=
  match r with
  | Eps => k prev s
  | Lit w => match_lit w prev s k
  | Cls p =>
      match s with
      | c :: s' => if p c then k (Some c) s' else None
      | [] => None
      end
  | Bnd => if word_boundary prev s then k prev s else None
  | Seq r1 r2 => match_re r1 prev s (fun prev' s' => match_re r2 prev' s' k)
  | Alt r1 r2 =>
      match match_re r1 prev s k with
      | Some x => Some x
      | None => match_re r2 prev s k
      end
  | Opt r1 =>
      match match_re r1 prev s k with
      | Some x => Some x
      | None => k prev s
      end
  | StarCls p => match_star p prev s k
  end.
End Matcher.

(** The match of [r] that starts at the current position, as the number
    of characters it consumes. *)
Definition match_len (r : regex) (prev : option ascii) (s : pystr) : option nat :=
  match_re r prev s (fun _ rest => Some (length s - length rest)).

(** [re.sub(r, repl, s)] for a pattern that matches no empty string (no
    pattern of the module does): the string is scanned from the left, a
    match is replaced and the scan goes on after it; [skip] counts the
    characters of the current match that are still to be dropped. *)
Fixpoint sub_from (r : regex) (repl : pystr) (prev : option ascii) (skip : nat)
  (s : pystr) : pystr :=
  match s with
  | c :: s' =>
      match skip with
      | S n => sub_from r repl (Some c) n s'
      | 0 =>
          match match_len r prev s with
          | Some (S n) => repl ++ sub_from r repl (Some c) n s'
          | _ => c :: sub_from r repl (Some c) 0 s'
          end
      end
  | [] => []
  end.

Definition sub (r : regex) (repl : pystr) (s : pystr) : pystr :=
  sub_from r repl None 0 s.

(** [re.split(r, s)] for a pattern that matches no empty string; [cur] is
    the piece being read. *)
Fixpoint split_from (r : regex) (prev : option ascii) (skip : nat) (cur : pystr)
  (s : pystr) : list pystr :=
  match s with
  | c :: s' =>
      match skip with
      | S n => split_from r (Some c) n cur s'
      | 0 =>
          match match_len r prev s with
          | Some (S n) => cur :: split_from r (Some c) n [] s'
          | _ => split_from r (Some c) 0 (cur ++ [c]) s'
          end
      end
  | [] => [cur]
  end.

Definition split (r : regex) (s : pystr) : list pystr :=
  split_from r None 0 [] s.

(** ["|".join(re.escape(w) for w in ws)] *)
Fixpoint alternation (ws : list pystr) : regex :=
  match ws with
  | [] => Eps
  | [w] => Lit w
  | w :: ws' => Alt (Lit w) (alternation ws')
  end.

Definition one_of (cs : pystr) (c : ascii) : bool := bool_decide (c ∈ cs).

End Re.

(** ** The module [yui_io/wake.py] *)

Module Wake.

(** *** Collaborators *)

(** [os.environ] *)
Abbreviation environ := (gmap string pystr).

(** [os.getenv(name, default)] *)
Definition getenv (env : environ) (name : string) (default : option pystr)
  : option pystr :=
  match env !! name with
  | Some v => Some v
  | None => default
  end.

(** [o or d] for an optional string [o] and a string [d] *)
Definition or_else (o : option pystr) (d : pystr) : pystr :=
  if truthy o then or_empty o else d.

(** [config.settings.Settings]: the fields this module reads.  All but
    [wake_word] are handed to [listen] as they are; [V] is the type of
    their values, whatever they are.  A missing or [None] wake word is
    [None]. *)
Record Settings {V : Type} : Type := mkSettings {
  wake_word : option pystr;
  stt_language : V;
  wake_listen_timeout_s : V;
  wake_phrase_time_limit_s : V;
  stt_backend : V;
  stt_microphone_index : V;
  sounddevice_input_index : V;
}.
Arguments Settings : clear implicits.

(** The keyword arguments of one call of [yui_io.stt.listen]. *)
Record ListenArgs {V : Type} : Type := mkListenArgs {
  language : V;
  timeout_s : V;
  phrase_time_limit_s : V;
  backend : V;
  microphone_index : V;
  sounddevice_index : V;
}.
Arguments ListenArgs : clear implicits.

(** A computation that may call [listen]: either it returns, or it calls
    [listen] and goes on with the transcript (or [None]) it gets back. *)
Inductive Prog (V A : Type) : Type :=
| Ret (a : A)
| Listen (args : ListenArgs V) (k : option pystr -> Prog V A).
Arguments Ret {V A} a.
Arguments Listen {V A} args k.

(** Running a computation against a collaborator; the calls made are
    logged in order. *)
Fixpoint run {V A} (stt : ListenArgs V -> option pystr) (p : Prog V A)
  : A * list (ListenArgs V) :=
  match p with
  | Ret a => (a, [])
  | Listen args k =>
      let '(a, calls) := run stt (k (stt args)) in (a, args :: calls)
  end.

(** *** [_normalize] *)

Definition _normalize (text : option pystr) : pystr :=
  let text := lower (strip (or_else text [])) in
  let text := Re.sub (Re.PlusCls isspace) (py " ") text in
  text.

(** *** [_wake_candidates] *)

Definition YUI_WAKE_WORD_ALIASES : string := "YUI_WAKE_WORD_ALIASES".
Definition YUI_WAKE_WORD_FUZZY : string := "YUI_WAKE_WORD_FUZZY".

(** The pattern [[,\|;]\s*] *)
Definition alias_separator : Re.regex :=
  Re.Seq (Re.Cls (Re.one_of (py ",|;"))) (Re.StarCls isspace).

(** The loop of lines 26-29; [aliases] is the list built so far. *)
Fixpoint collect_aliases (parts : list pystr) (aliases : list pystr) : list pystr :=
  match parts with
  | part :: parts' =>
      let p := _normalize (Some part) in
      match p with
      | _ :: _ => collect_aliases parts' (aliases ++ [p])
      | [] => collect_aliases parts' aliases
      end
  | [] => aliases
  end.

(** The loop of lines 33-39. *)
Fixpoint dedup_loop (ws : list pystr) (seen : gset pystr) (out : list pystr)
  : list pystr :=
  match ws with
  | w :: ws' =>
      match w with
      | [] => dedup_loop ws' seen out
      | _ :: _ =>
          if bool_decide (w ∈ seen) then dedup_loop ws' seen out
          else dedup_loop ws' ({[w]} ∪ seen) (out ++ [w])
      end
  | [] => out
  end.

Definition env_aliases (env : environ) : pystr :=
  strip (or_else (getenv env YUI_WAKE_WORD_ALIASES (Some [])) []).

Definition aliases_of (env : environ) : list pystr :=
  match env_aliases env with
  | _ :: _ => collect_aliases (Re.split alias_separator (env_aliases env)) []
  | [] => []
  end.

Definition _wake_candidates {V} (env : environ) (settings : Settings V)
  : list pystr :=
  let base := _normalize (Some (or_else (wake_word settings) [])) in
  let aliases := aliases_of env in
  dedup_loop (base :: aliases) ∅ [].

(** *** [_edit_distance_le1] *)

(** The loop of lines 57-61 over [a[i:]] and [b[i:]]; [false] is the early
    [return False], [true] the end of the loop. *)
Fixpoint substitution_loop (a b : pystr) (diff : nat) : bool :=
  match a, b with
  | x :: a', y :: b' =>
      if bool_decide (x ≠ y)
      then let diff := diff + 1 in
           if bool_decide (1 < diff) then false
           else substitution_loop a' b' diff
      else substitution_loop a' b' diff
  | _, _ => true
  end.

(** The loop of lines 72-80 over [a[i:]] and [b[j:]]: it runs while both
    are non-empty, and [j] advances at every turn. *)
Fixpoint insertion_loop (a b : pystr) (diff : nat) : bool :=
  match b with
  | y :: b' =>
      match a with
      | x :: a' =>
          if bool_decide (x = y) then insertion_loop a' b' diff
          else let diff := diff + 1 in
               if bool_decide (1 < diff) then false
               else insertion_loop a b' diff
      | [] => true
      end
  | [] => true
  end.

Definition _edit_distance_le1 (a b : option pystr) : bool :=
  let a := or_else a [] in
  let b := or_else b [] in
  if bool_decide (a = b) then true else
  let la := Z.of_nat (length a) in
  let lb := Z.of_nat (length b) in
  if bool_decide (1 < Z.abs (la - lb))%Z then false else
  if bool_decide (la = lb) then substitution_loop a b 0 else
  let '(a, b) := if bool_decide (lb < la)%Z then (b, a) else (a, b) in
  insertion_loop a b 0.

(** *** [wait_for_wake_word] *)

Record WakeResult : Type := mkWakeResult {
  heard : bool;
  transcript : option pystr;
}.

(** The loop of lines 121-123; [true] is the [return] of line 123. *)
Fixpoint fuzzy_candidates (word : pystr) (candidates : list pystr) : bool :=
  match candidates with
  | cand :: candidates' =>
      if _edit_distance_le1 (Some word) (Some cand) then true
      else fuzzy_candidates word candidates'
  | [] => false
  end.

(** The loop of lines 118-123. *)
Fixpoint fuzzy_words (words : list pystr) (candidates : list pystr) : bool :=
  match words with
  | word :: words' =>
      if bool_decide (length word < 2) || bool_decide (6 < length word)
      then fuzzy_words words' candidates
      else if fuzzy_candidates word candidates then true
      else fuzzy_words words' candidates
  | [] => false
  end.

(** Lines 116-117: the value of [fuzzy not in {"0", "false", "False"}]. *)
Definition fuzzy_enabled (env : environ) : bool :=
  let fuzzy := strip (or_else (getenv env YUI_WAKE_WORD_FUZZY (Some (py "1"))) (py "1")) in
  negb (bool_decide (fuzzy ∈ [py "0"; py "false"; py "False"])).

Definition listen_args {V} (settings : Settings V) : ListenArgs V :=
  {| language := stt_language settings;
     timeout_s := wake_listen_timeout_s settings;
     phrase_time_limit_s := wake_phrase_time_limit_s settings;
     backend := stt_backend settings;
     microphone_index := stt_microphone_index settings;
     sounddevice_index := sounddevice_input_index settings |}.

Definition wait_for_wake_word {V} (env : environ) (settings : Settings V)
  : Prog V WakeResult :=
  let candidates := _wake_candidates env settings in
  match candidates with
  | [] => Ret {| heard := true; transcript := None |}
  | _ :: _ =>
      Listen (listen_args settings) (fun transcript =>
        if negb (truthy transcript)
        then Ret {| heard := false; transcript := None |}
        else
          let norm := _normalize transcript in
          let words := PyStr.split norm in
          if existsb (fun w => bool_decide (w ∈ words) || contains norm w) candidates
          then Ret {| heard := true; transcript := transcript |}
          else if fuzzy_enabled env
          then if fuzzy_words words candidates
               then Ret {| heard := true; transcript := transcript |}
               else Ret {| heard := false; transcript := transcript |}
          else Ret {| heard := false; transcript := transcript |})
  end.

(** *** [strip_wake_word] *)

(** [sorted(ws, key=len, reverse=True)]: longest first, strings of one
    length in their order in [ws]. *)
Fixpoint insert_by_len (w : pystr) (sorted : list pystr) : list pystr :=
  match sorted with
  | x :: sorted' =>
      if bool_decide (length x ≤ length w) then w :: sorted
      else x :: insert_by_len w sorted'
  | [] => [w]
  end.

Definition sorted_by_len_desc (ws : list pystr) : list pystr :=
  foldr insert_by_len [] ws.

Definition nonempty (w : pystr) : bool :=
  match w with
  | [] => false
  | _ :: _ => true
  end.

(** The pattern [\b(?:{wake})\b[:,]?\s*] *)
Definition wake_pattern (candidates : list pystr) : Re.regex :=
  let wake := Re.alternation (List.filter nonempty candidates) in
  Re.Seq Re.Bnd
    (Re.Seq wake
       (Re.Seq Re.Bnd
          (Re.Seq (Re.Opt (Re.Cls (Re.one_of (py ":,"))))
             (Re.StarCls isspace)))).

Definition strip_wake_word {V} (env : environ) (text : option pystr)
  (settings : Settings V) : pystr :=
  let candidates := _wake_candidates env settings in
  match candidates with
  | [] => _normalize text
  | _ :: _ =>
      let candidates := sorted_by_len_desc candidates in
      let t := _normalize text in
      strip (Re.sub (wake_pattern candidates) [] t)
  end.

End Wake.

Import Wake.

(** ** Reference notions of the specification *)

(** The Levenshtein distance: the least number of insertions, deletions
    and substitutions of one character that turn [a] into [b]. *)
Fixpoint levenshtein (a : pystr) : pystr -> nat :=
  match a with
  | [] => fun b => length b
  | x :: a' =>
      fix inner (b : pystr) : nat :=
        match b with
        | [] => length a
        | y :: b' =>
            Nat.min (Nat.min (S (levenshtein a' b)) (S (inner b')))
              (levenshtein a' b' + if bool_decide (x = y) then 0 else 1)
        end
  end.


(** One insertion, deletion or substitution of a character. *)
Inductive one_edit : pystr -> pystr -> Prop :=
| edit_substitute l x y r : one_edit (l ++ x :: r) (l ++ y :: r)
| edit_insert l y r : one_edit (l ++ r) (l ++ y :: r)
| edit_delete l x r : one_edit (l ++ x :: r) (l ++ r).

(** ** The loops of [_edit_distance_le1], with their indices *)

(** Lines 57-61 as they are written: [i] runs over [range(la)]. *)
Fixpoint substitution_indexed (range : list nat) (a b : pystr) (diff : nat) : bool :=
  match range with
  | i :: range' =>
      if bool_decide (a !! i <> b !! i)
      then let diff := diff + 1 in
           if bool_decide (1 < diff) then false
           else substitution_indexed range' a b diff
      else substitution_indexed range' a b diff
  | [] => true
  end.

(** Lines 72-80 as they are written; [fuel] bounds the number of turns of
    the [while], and [None] means that it did not suffice. *)
Fixpoint insertion_indexed (fuel : nat) (a b : pystr) (i j diff : nat) : option bool :=
  match fuel with
  | S fuel' =>
      if bool_decide (i < length a) && bool_decide (j < length b)
      then if bool_decide (a !! i = b !! j)
           then insertion_indexed fuel' a b (i + 1) (j + 1) diff
           else let diff := diff + 1 in
                if bool_decide (1 < diff) then Some false
                else insertion_indexed fuel' a b i (j + 1) diff
      else Some true
  | 0 => None
  end.

(** The code points of the characters of a class. *)
Definition codes (p : ascii -> bool) : list nat :=
  List.filter (fun n => p (ascii_of_nat n)) (seq 0 256).

(** The order of [sorted(..., key=len, reverse=True)]. *)
Definition longer (x y : pystr) : Prop := length y <= length x.

(** ** Normal form of a text *)

(** No whitespace at the start, none at the end. *)
Definition no_lead (s : pystr) : Prop :=
  match s with
  | c :: _ => isspace c = false
  | [] => True
  end.

Definition no_trail (s : pystr) : Prop :=
  match last s with
  | Some c => isspace c = false
  | None => True
  end.

(** Every whitespace character is one SPACE that follows no whitespace;
    [after_space] tells whether the character before [s] is whitespace. *)
Fixpoint single_spaced (after_space : bool) (s : pystr) : Prop :=
  match s with
  | c :: s' =>
      if isspace c
      then c = " "%char /\ after_space = false /\ single_spaced true s'
      else single_spaced false s'
  | [] => True
  end.

Definition lowered (s : pystr) : Prop := Forall (fun c => lower_char c = c) s.

(** Trimmed, lowercase, words separated by single spaces. *)
Definition normalized (s : pystr) : Prop :=
  no_lead s /\ no_trail s /\ single_spaced false s /\ lowered s.

(** [re.sub(r"\s+", " ", s)] as a scan of [s]; [in_run] tells whether the
    scan is inside a run of whitespace. *)
Fixpoint collapse (in_run : bool) (s : pystr) : pystr :=
  match s with
  | c :: s' =>
      if isspace c
      then if in_run then collapse true s' else " "%char :: collapse true s'
      else c :: collapse false s'
  | [] => []
  end.

(** The characters consumed by a match change the character that precedes
    the next position. *)
Definition last_or (prev : option ascii) (m : pystr) : option ascii :=
  match last m with
  | Some c => Some c
  | None => prev
  end.

(** The rest of [s] after its longest prefix of characters of class [p]. *)
Fixpoint skip_class (p : ascii -> bool) (s : pystr) : pystr :=
  match s with
  | c :: s' => if p c then skip_class p s' else s
  | [] => []
  end.

(** ** Reference notions for the candidate set *)

(** Deduplication in first-seen order: an entry stays where it first
    occurs, its later occurrences are dropped. *)
Fixpoint dedup_first (l : list pystr) : list pystr :=
  match l with
  | x :: l' => x :: filter (fun y => y <> x) (dedup_first l')
  | [] => []
  end.

(** The pieces of the alias override, in the order they are written. *)
Definition alias_parts (env : environ) : list pystr :=
  match env_aliases env with
  | _ :: _ => Re.split alias_separator (env_aliases env)
  | [] => []
  end.

(** ** Concrete configurations *)

(** Settings with wake word [w], the other fields being immaterial. *)
Definition settings_of (w : string) : Settings unit :=
  {| wake_word := Some (py w);
     stt_language := tt; wake_listen_timeout_s := tt;
     wake_phrase_time_limit_s := tt; stt_backend := tt;
     stt_microphone_index := tt; sounddevice_input_index := tt |}.

(** An environment with the two overrides set or unset. *)
Definition env_of (aliases fuzzy : option string) : environ :=
  let env : environ :=
    match aliases with
    | Some a => {[ YUI_WAKE_WORD_ALIASES := py a ]}
    | None => ∅
    end in
  match fuzzy with
  | Some f => <[ YUI_WAKE_WORD_FUZZY := py f ]> env
  | None => env
  end.

(** A collaborator that hears [t] whatever it is asked. *)
Definition hears (t : string) : ListenArgs unit -> option pystr :=
  fun _ => Some (py t).

(** ** Reference notions for the detection *)

(** [w] occurs in [s] at some position. *)
Definition substring (w s : pystr) : Prop := exists l r, s = l ++ w ++ r.

(** The exact/substring pass finds a candidate in the normalized
    transcript [norm]. *)
Definition exact_match (candidates : list pystr) (norm : pystr) : Prop :=
  exists w, w ∈ candidates /\ (w ∈ PyStr.split norm \/ substring w norm).

(** The values of the fuzzy override that switch the fuzzy pass off. *)
Definition fuzzy_off_values : list pystr := [py "0"; py "false"; py "False"].

(** ** Reference notions for the stripping *)

(** Candidate [w] occurs as a whole word at the front of [s], [prev] being
    the character before [s]: [s] starts with [w], and there is a word
    boundary before and after it. *)
Definition occurs_at (candidates : list pystr) (prev : option ascii) (s w : pystr)
  : Prop :=
  w ∈ candidates /\ w `prefix_of` s
  /\ Re.word_boundary prev s = true
  /\ Re.word_boundary (last_or prev w) (drop (length w) s) = true.

(** The occurrence that is removed at a position: the longest one. *)
Definition longest_at (candidates : list pystr) (prev : option ascii) (s w : pystr)
  : Prop :=
  occurs_at candidates prev s w
  /\ forall w', occurs_at candidates prev s w' -> length w' <= length w.

Definition is_punct (c : ascii) : bool := Re.one_of (py ":,") c.

(** What is removed with an occurrence followed by [p ++ sp ++ rest]: [p],
    the colon or comma right after it if there is one, and [sp], all the
    whitespace that follows. *)
Definition trailing (p sp rest : pystr) : Prop :=
  match p with
  | [] => match sp ++ rest with c :: _ => is_punct c = false | [] => True end
  | [c] => is_punct c = true
  | _ => False
  end
  /\ Forall (fun c => isspace c = true) sp
  /\ no_lead rest.

(** [removes candidates prev s out]: [out] is [s] without the whole-word
    occurrences of the candidates, found from left to right, each with
    what trails it. *)
Inductive removes (candidates : list pystr) : option ascii -> pystr -> pystr -> Prop :=
| removes_nil prev :
    removes candidates prev [] []
| removes_keep prev c s out :
    (forall w, ~ occurs_at candidates prev (c :: s) w) ->
    removes candidates (Some c) s out ->
    removes candidates prev (c :: s) (c :: out)
| removes_occurrence prev w p sp rest out :
    longest_at candidates prev (w ++ p ++ sp ++ rest) w ->
    trailing p sp rest ->
    removes candidates (last_or prev (w ++ p ++ sp)) rest out ->
    removes candidates prev (w ++ p ++ sp ++ rest) out.

(** The reading under which only the first occurrence is removed: if the
    normalized text is [u ++ w ++ p ++ sp ++ rest], where no candidate
    occurs at a position of [u] and [w] is the occurrence after [u], the
    result is [u ++ rest], trimmed. *)
Definition strips_first_only {V} (env : environ) (text : option pystr)
  (settings : Settings V) : Prop :=
  let candidates := _wake_candidates env settings in
  forall u w p sp rest,
    _normalize text = u ++ w ++ p ++ sp ++ rest ->
    (forall u1 c u2 w', u = u1 ++ c :: u2 ->
       ~ occurs_at candidates (last_or None u1) (c :: u2 ++ w ++ p ++ sp ++ rest) w') ->
    longest_at candidates (last_or None u) (w ++ p ++ sp ++ rest) w ->
    trailing p sp rest ->
    strip_wake_word env text settings = strip (u ++ rest).

(** ** Auxiliary functions of the proofs about the stripping *)

(** The pattern of [strip_wake_word] after the candidate. *)
Definition drop_punct (s : pystr) : pystr :=
  match s with
  | c :: s' => if is_punct c then s' else s
  | [] => []
  end.

Definition after_match (w s : pystr) : pystr :=
  lstrip (drop_punct (drop (length w) s)).

Definition whole_word (prev : option ascii) (s w : pystr) : bool :=
  startswith s w && Re.word_boundary (last_or prev w) (drop (length w) s).

(** The candidate the pattern matches at a position: the first one, in
    the order of the alternation, that is a whole word there. *)
Definition chosen (ws : list pystr) (prev : option ascii) (s : pystr) : option pystr :=
  if Re.word_boundary prev s then List.find (whole_word prev s) ws else None.

(** The reading under which the fuzzy override is compared as it is set:
    the fuzzy pass is off exactly when the value is one of the three. *)
Definition fuzzy_off_untrimmed (env : environ) : Prop :=
  fuzzy_enabled env = false <->
  exists v, env !! YUI_WAKE_WORD_FUZZY = Some v /\ v ∈ fuzzy_off_values.


(** ** Auxiliary notions of the further properties *)

(** Some candidate occurs as a whole word at a position of [s], [prev]
    being the character before [s]. *)
Fixpoint occurs_from (candidates : list pystr) (prev : option ascii) (s : pystr)
  : bool :=
  match s with
  | c :: s' =>
      (Re.word_boundary prev s && existsb (whole_word prev s) candidates)
      || occurs_from candidates (Some c) s'
  | [] => false
  end.

(** [" ".join(ts)] *)
Fixpoint join_spaces (ts : list pystr) : pystr :=
  match ts with
  | [] => []
  | [t] => t
  | t :: ts' => t ++ " "%char :: join_spaces ts'
  end.

(** The characters that separate the aliases. *)
Definition is_separator (c : ascii) : bool := Re.one_of (py ",|;") c.

Definition no_separator (s : pystr) : Prop :=
  Forall (fun c => is_separator c = false) s.

(** ** Levenshtein distance at most one *)

Section Levenshtein.
Implicit Types a b : pystr.

Lemma levenshtein_nil_r a : levenshtein a [] = length a.
Proof. by destruct a. Qed.

Lemma levenshtein_cons x a y b :
  levenshtein (x :: a) (y :: b) =
  Nat.min (Nat.min (S (levenshtein a (y :: b))) (S (levenshtein (x :: a) b)))
    (levenshtein a b + if bool_decide (x = y) then 0 else 1).
Proof. reflexivity. Qed.

Lemma levenshtein_refl a : levenshtein a a = 0.
Proof.
  induction a as [|x a IH]; [done|].
  rewrite levenshtein_cons, IH, bool_decide_eq_true_2 by done. lia.
Qed.

Lemma levenshtein_sym a b : levenshtein a b = levenshtein b a.
Proof.
  revert b. induction a as [|x a IHa]; intros b.
  - by rewrite levenshtein_nil_r.
  - induction b as [|y b IHb]; [done|].
    rewrite !levenshtein_cons, IHb, !IHa.
    destruct (decide (x = y)) as [->|Hne].
    + rewrite !bool_decide_eq_true_2 by done. lia.
    + rewrite !bool_decide_eq_false_2 by congruence. lia.
Qed.

Lemma levenshtein_zero a b : levenshtein a b = 0 -> a = b.
Proof.
  revert b. induction a as [|x a IHa]; intros b.
  - destruct b; [done|]. simpl. lia.
  - destruct b as [|y b]; [simpl; lia|].
    rewrite levenshtein_cons. case_bool_decide as Hxy; [|lia].
    intros H. subst y. f_equal. apply IHa. lia.
Qed.

Lemma levenshtein_length a b :
  length a - length b <= levenshtein a b /\ length b - length a <= levenshtein a b.
Proof.
  revert b. induction a as [|x a IHa]; intros b.
  - simpl. lia.
  - induction b as [|y b IHb]; [simpl; lia|].
    rewrite levenshtein_cons.
    pose proof (IHa (y :: b)). pose proof (IHa b). simpl length in *. lia.
Qed.

Lemma levenshtein_cons_same x a b :
  levenshtein (x :: a) (x :: b) <= 1 <-> levenshtein a b <= 1.
Proof.
  rewrite levenshtein_cons, bool_decide_eq_true_2 by done. split; [|lia].
  intros H.
  destruct (decide (levenshtein a b <= 1)) as [|Hgt]; [done|].
  assert (levenshtein a (x :: b) = 0 \/ levenshtein (x :: a) b = 0) as [H0|H0] by lia.
  - apply levenshtein_zero in H0. subst a.
    destruct b as [|y b]; [simpl; lia|].
    rewrite levenshtein_cons, (levenshtein_refl (y :: b)). lia.
  - apply levenshtein_zero in H0. subst b.
    rewrite levenshtein_sym.
    destruct a as [|y a]; [simpl; lia|].
    rewrite levenshtein_cons, (levenshtein_refl (y :: a)). lia.
Qed.

(** Two different first characters: one edit is the substitution of the
    first character, its deletion or the insertion of the other one. *)
Lemma levenshtein_cons_diff x a y b :
  x <> y ->
  levenshtein (x :: a) (y :: b) <= 1 <-> a = b \/ a = y :: b \/ x :: a = b.
Proof.
  intros Hne. rewrite levenshtein_cons, bool_decide_eq_false_2 by done. split.
  - intros H.
    destruct (decide (levenshtein a b = 0)) as [H0|]; [left; by apply levenshtein_zero|].
    destruct (decide (levenshtein a (y :: b) = 0)) as [H1|];
      [right; left; by apply levenshtein_zero|].
    right; right. apply levenshtein_zero. lia.
  - intros [->|[->| <-]]; rewrite ?levenshtein_refl; lia.
Qed.

Lemma substitution_loop_one a b :
  length a = length b -> substitution_loop a b 1 = true <-> a = b.
Proof.
  revert b. induction a as [|x a IH]; intros [|y b] Hlen; try done.
  simpl in *. case_bool_decide as Hxy.
  - split; [done|]. congruence.
  - subst y. rewrite IH by lia. split; congruence.
Qed.

Lemma substitution_loop_zero a b :
  length a = length b ->
  substitution_loop a b 0 = true <-> levenshtein a b <= 1.
Proof.
  revert b. induction a as [|x a IH]; intros [|y b] Hlen; try done.
  - simpl. split; [lia|done].
  - simpl in Hlen. simpl substitution_loop. case_bool_decide as Hxy.
    + rewrite substitution_loop_one by lia.
      rewrite levenshtein_cons_diff by done. split; [tauto|].
      intros [?|[->| <-]]; [done|simpl in *; lia..].
    + subst y.
      rewrite IH by lia. by rewrite levenshtein_cons_same.
Qed.

Lemma insertion_loop_one a b :
  length a = length b -> insertion_loop a b 1 = true <-> a = b.
Proof.
  revert a. induction b as [|y b IH]; intros [|x a] Hlen; try done.
  simpl in *. case_bool_decide as Hxy.
  - subst y. rewrite IH by lia. split; congruence.
  - split; [done|]. congruence.
Qed.

Lemma insertion_loop_zero a b :
  length b = S (length a) ->
  insertion_loop a b 0 = true <-> levenshtein a b <= 1.
Proof.
  revert a. induction b as [|y b IH]; intros a Hlen; [done|].
  destruct a as [|x a].
  - destruct b; [|done]. simpl. split; [lia|done].
  - simpl in Hlen. simpl insertion_loop. case_bool_decide as Hxy.
    + subst y. rewrite IH by lia. by rewrite levenshtein_cons_same.
    + rewrite insertion_loop_one by (simpl; lia).
      rewrite levenshtein_cons_diff by done. split; [tauto|].
      intros [->|[->| <-]]; [simpl in *; lia..|done].
Qed.

Lemma edit_distance_le1_levenshtein (a b : option pystr) :
  _edit_distance_le1 a b = true <->
  levenshtein (or_else a []) (or_else b []) <= 1.
Proof.
  unfold _edit_distance_le1.
  generalize (or_else a []) (or_else b []). clear a b. intros a b.
  pose proof (levenshtein_length a b) as [Hab Hba].
  case_bool_decide as Heq.
  { subst b. rewrite levenshtein_refl. split; [lia|done]. }
  case_bool_decide as Hfar.
  { split; [done|]. lia. }
  case_bool_decide as Hlen.
  { apply substitution_loop_zero. lia. }
  case_bool_decide as Hswap.
  - rewrite levenshtein_sym. apply insertion_loop_zero. lia.
  - apply insertion_loop_zero. lia.
Qed.

(** A distance of at most one is equality or one edit. *)
Lemma levenshtein_snoc_le1 y r : levenshtein r (y :: r) <= 1.
Proof.
  destruct r as [|x r]; [simpl; lia|].
  rewrite levenshtein_cons, (levenshtein_sym r), (levenshtein_refl (x :: r)). lia.
Qed.

Lemma one_edit_cons c a b : one_edit a b -> one_edit (c :: a) (c :: b).
Proof.
  intros [l x y r|l y r|l x r].
  - apply (edit_substitute (c :: l)).
  - apply (edit_insert (c :: l)).
  - apply (edit_delete (c :: l)).
Qed.

Lemma levenshtein_le1_one_edit a b :
  levenshtein a b <= 1 <-> a = b \/ one_edit a b.
Proof.
  split.
  - revert b. induction a as [|x a IH]; intros b.
    + destruct b as [|y [|z b]]; simpl; [by left| |lia].
      intros _. right. apply (edit_insert [] y []).
    + destruct b as [|y b].
      * destruct a; simpl; [|lia]. intros _. right. apply (edit_delete [] x []).
      * destruct (decide (x = y)) as [->|Hne].
        -- intros [->|He]%levenshtein_cons_same%IH; [by left|].
           right. by apply one_edit_cons.
        -- intros H%levenshtein_cons_diff; [|done]. right.
           destruct H as [->|[->| <-]].
           ++ apply (edit_substitute [] x y b).
           ++ apply (edit_delete [] x (y :: b)).
           ++ apply (edit_insert [] y (x :: a)).
  - intros [->|He]; [rewrite levenshtein_refl; lia|].
    destruct He as [l x y r|l y r|l x r]; induction l as [|c l IH]; simpl app.
    + rewrite levenshtein_cons, levenshtein_refl. case_bool_decide; lia.
    + by apply levenshtein_cons_same.
    + apply levenshtein_snoc_le1.
    + by apply levenshtein_cons_same.
    + rewrite levenshtein_sym. apply levenshtein_snoc_le1.
    + by apply levenshtein_cons_same.
Qed.

(** The loops over the rests of the strings are the loops over the
    indices. *)
Lemma substitution_indexed_spec a b i n diff :
  length a = length b -> i + n = length a ->
  substitution_indexed (seq i n) a b diff
  = substitution_loop (drop i a) (drop i b) diff.
Proof.
  intros Hlen. revert i diff. induction n as [|n IH]; intros i diff Hi.
  - rewrite !drop_ge by lia. done.
  - destruct (lookup_lt_is_Some_2 a i) as [x Hx]; [lia|].
    destruct (lookup_lt_is_Some_2 b i) as [y Hy]; [lia|].
    rewrite (drop_S _ _ _ Hx), (drop_S _ _ _ Hy). cbn [seq substitution_indexed substitution_loop].
    rewrite Hx, Hy, !IH by lia.
    destruct (decide (x = y)) as [->|Hne].
    + rewrite (bool_decide_eq_false_2 (Some y <> Some y)) by (intros H; by apply H).
      by rewrite (bool_decide_eq_false_2 (y <> y)) by (intros H; by apply H).
    + rewrite (bool_decide_eq_true_2 (Some x <> Some y)) by congruence.
      by rewrite (bool_decide_eq_true_2 (x <> y)) by congruence.
Qed.

(** With enough fuel the [while] loop ends, with the result of the loop
    over the rests of the strings. *)
Lemma insertion_indexed_spec fuel a b i j diff :
  length b - j < fuel ->
  insertion_indexed fuel a b i j diff
  = Some (insertion_loop (drop i a) (drop j b) diff).
Proof.
  revert i j diff. induction fuel as [|fuel IH]; intros i j diff Hfuel; [lia|].
  cbn [insertion_indexed].
  destruct (decide (j < length b)) as [Hj|Hj].
  - destruct (lookup_lt_is_Some_2 b j) as [y Hy]; [lia|].
    rewrite (drop_S _ _ _ Hy). rewrite (bool_decide_eq_true_2 (j < length b)) by done.
    destruct (decide (i < length a)) as [Hi|Hi].
    + destruct (lookup_lt_is_Some_2 a i) as [x Hx]; [lia|].
      rewrite (drop_S _ _ _ Hx), (bool_decide_eq_true_2 (i < length a)) by done.
      cbn [andb insertion_loop]. rewrite Hx, Hy.
      destruct (decide (x = y)) as [->|Hne].
      * rewrite (bool_decide_eq_true_2 (Some y = Some y)) by done.
        rewrite (bool_decide_eq_true_2 (y = y)) by done.
        rewrite IH by lia. by rewrite !Nat.add_1_r.
      * rewrite (bool_decide_eq_false_2 (Some x = Some y)) by congruence.
        rewrite (bool_decide_eq_false_2 (x = y)) by done. cbv zeta.
        case_bool_decide; [done|]. rewrite IH by lia.
        by rewrite (drop_S _ _ _ Hx), !Nat.add_1_r.
    + rewrite (bool_decide_eq_false_2 (i < length a)) by done.
      rewrite drop_ge by lia. done.
  - rewrite (bool_decide_eq_false_2 (j < length b)) by done.
    rewrite andb_false_r, (drop_ge b) by lia. done.
Qed.

Lemma substitution_loop_indexed a b :
  length a = length b ->
  substitution_indexed (seq 0 (length a)) a b 0 = substitution_loop a b 0.
Proof. intros Hlen. by rewrite (substitution_indexed_spec a b 0 (length a) 0 Hlen). Qed.

Lemma insertion_loop_indexed a b :
  insertion_indexed (S (length b)) a b 0 0 0 = Some (insertion_loop a b 0).
Proof. rewrite insertion_indexed_spec by lia. done. Qed.

End Levenshtein.

(** ** Characters *)

Section Characters.

(** The three tables, by code point. *)
Example isspace_codes :
  codes isspace = [9; 10; 11; 12; 13; 28; 29; 30; 31; 32; 133; 160].
Proof. by vm_compute. Qed.

Example lower_char_codes :
  codes (fun c => negb (bool_decide (lower_char c = c)))
  = seq 65 26 ++ seq 192 23 ++ seq 216 7
  /\ forall c, lower_char c <> c -> code (lower_char c) = (code c + 32)%N.
Proof.
  split; [by vm_compute|].
  intros c. by destruct c as [[] [] [] [] [] [] [] []]; vm_compute.
Qed.

Example isword_codes :
  codes isword
  = seq 48 10 ++ seq 65 26 ++ [95] ++ seq 97 26
    ++ [170; 178; 179; 181; 185; 186; 188; 189; 190]
    ++ seq 192 23 ++ seq 216 31 ++ seq 248 8.
Proof. by vm_compute. Qed.

Lemma lower_char_idemp c : lower_char (lower_char c) = lower_char c.
Proof. by destruct c as [[] [] [] [] [] [] [] []]; vm_compute. Qed.

Lemma isspace_lower_char c : isspace (lower_char c) = isspace c.
Proof. by destruct c as [[] [] [] [] [] [] [] []]; vm_compute. Qed.

Lemma isspace_lowered c : isspace c = true -> lower_char c = c.
Proof. by destruct c as [[] [] [] [] [] [] [] []]; vm_compute. Qed.

End Characters.

(** ** Trimming *)

Section Strip.
Implicit Types s : pystr.

Lemma no_trail_cons c s : s <> [] -> no_trail (c :: s) <-> no_trail s.
Proof. destruct s; [done|]. intros _. unfold no_trail. by rewrite last_cons_cons. Qed.

Lemma lstrip_no_lead s : no_lead (lstrip s).
Proof.
  induction s as [|c s IH]; [done|]. simpl.
  destruct (isspace c) eqn:Hc; [done|]. exact Hc.
Qed.

Lemma lstrip_id s : no_lead s -> lstrip s = s.
Proof. destruct s as [|c s]; [done|]. simpl. by intros ->. Qed.

Lemma rstrip_cons c s :
  rstrip (c :: s) =
  match rstrip s with
  | [] => if isspace c then [] else [c]
  | _ :: _ => c :: rstrip s
  end.
Proof. simpl. by destruct (rstrip s). Qed.

Lemma rstrip_no_trail s : no_trail (rstrip s).
Proof.
  induction s as [|c s IH]; [done|]. rewrite rstrip_cons.
  destruct (rstrip s) as [|d r] eqn:Hr.
  - destruct (isspace c) eqn:Hc; [done|]. exact Hc.
  - by apply no_trail_cons.
Qed.

Lemma rstrip_id s : no_trail s -> rstrip s = s.
Proof.
  induction s as [|c s IH]; [done|]. intros Hs. rewrite rstrip_cons.
  destruct s as [|d s].
  - simpl. unfold no_trail in Hs. simpl in Hs. by rewrite Hs.
  - apply no_trail_cons in Hs; [|done]. by rewrite (IH Hs).
Qed.

Lemma rstrip_no_lead s : no_lead s -> no_lead (rstrip s).
Proof.
  destruct s as [|c s]; [done|]. intros Hc. rewrite rstrip_cons.
  destruct (rstrip s); [|done]. simpl in Hc. by rewrite Hc.
Qed.

Lemma strip_no_lead s : no_lead (strip s).
Proof. apply rstrip_no_lead, lstrip_no_lead. Qed.

Lemma strip_no_trail s : no_trail (strip s).
Proof. apply rstrip_no_trail. Qed.

Lemma strip_id s : no_lead s -> no_trail s -> strip s = s.
Proof. intros H1 H2. unfold strip. rewrite lstrip_id by done. by apply rstrip_id. Qed.

Lemma single_spaced_weaken b s : single_spaced b s -> single_spaced false s.
Proof. destruct s as [|c s]; [done|]. simpl. destruct (isspace c); tauto. Qed.

Lemma single_spaced_cons b c s :
  single_spaced b (c :: s) <->
  (isspace c = true -> c = " "%char /\ b = false) /\ single_spaced (isspace c) s.
Proof. simpl. destruct (isspace c); intuition discriminate. Qed.

Lemma lstrip_single_spaced b s : single_spaced b s -> single_spaced false (lstrip s).
Proof.
  revert b. induction s as [|c s IH]; intros b; [done|].
  intros H. simpl lstrip. destruct (isspace c) eqn:Hc.
  - apply single_spaced_cons in H as [_ H]. by eapply IH.
  - by eapply single_spaced_weaken.
Qed.

Lemma rstrip_single_spaced b s : single_spaced b s -> single_spaced b (rstrip s).
Proof.
  revert b. induction s as [|c s IH]; intros b; [done|].
  intros H. apply single_spaced_cons in H as [H1 H2]. rewrite rstrip_cons.
  destruct (rstrip s) as [|d r] eqn:Hr.
  - destruct (isspace c) eqn:Hc; [done|]. apply single_spaced_cons. by rewrite Hc.
  - apply single_spaced_cons. split; [done|]. by apply IH.
Qed.

Lemma strip_single_spaced b s : single_spaced b s -> single_spaced false (strip s).
Proof. intros H. by eapply rstrip_single_spaced, lstrip_single_spaced. Qed.

Lemma lstrip_lowered s : lowered s -> lowered (lstrip s).
Proof.
  unfold lowered. induction 1 as [|c s Hc Hs IH]; [done|]. simpl.
  destruct (isspace c); [done|]. by constructor.
Qed.

Lemma rstrip_lowered s : lowered s -> lowered (rstrip s).
Proof.
  unfold lowered. induction 1 as [|c s Hc Hs IH]; [done|]. rewrite rstrip_cons.
  destruct (rstrip s).
  - destruct (isspace c); by repeat constructor.
  - by constructor.
Qed.

Lemma strip_lowered s : lowered s -> lowered (strip s).
Proof. intros. by apply rstrip_lowered, lstrip_lowered. Qed.

End Strip.

(** ** The matcher *)

Section MatcherFacts.
Implicit Types (s m rest : pystr) (prev : option ascii).

Lemma or_else_some s : or_else (Some s) [] = s.
Proof. by destruct s. Qed.

Lemma last_or_nil prev : last_or prev [] = prev.
Proof. reflexivity. Qed.

Lemma last_or_cons prev c m : last_or prev (c :: m) = last_or (Some c) m.
Proof.
  unfold last_or. rewrite last_cons. by destruct (last m).
Qed.

Lemma last_or_app prev m1 m2 : last_or prev (m1 ++ m2) = last_or (last_or prev m1) m2.
Proof.
  revert prev. induction m1 as [|c m1 IH]; intros prev; [done|].
  simpl app. by rewrite !last_or_cons, IH.
Qed.

Lemma skip_class_lstrip s : skip_class isspace s = lstrip s.
Proof. induction s as [|c s IH]; [done|]. simpl. by rewrite IH. Qed.

Lemma skip_class_length p s : length (skip_class p s) <= length s.
Proof. induction s as [|c s IH]; [done|]. simpl. destruct (p c); simpl; lia. Qed.

(** What a class repetition leaves is the string without a prefix of
    characters of the class. *)
Lemma skip_class_split p s :
  exists m, s = m ++ skip_class p s /\ Forall (fun c => p c = true) m
            /\ match skip_class p s with c :: _ => p c = false | [] => True end.
Proof.
  induction s as [|c s (m & Hs & Hm & Hrest)].
  - by exists [].
  - simpl. destruct (p c) eqn:Hc.
    + exists (c :: m). split_and!; [by rewrite <- app_comm_cons, <- Hs | by constructor | done].
    + by exists [].
Qed.

(** A repetition followed by a continuation that accepts whatever is left
    takes the longest prefix. *)
Lemma match_star_greedy {R} p prev s (f : pystr -> R) :
  Re.match_star p prev s (fun _ rest => Some (f rest)) = Some (f (skip_class p s)).
Proof.
  revert prev. induction s as [|c s IH]; intros prev; [done|].
  simpl. destruct (p c); [|done]. by rewrite IH.
Qed.

Lemma match_lit_startswith {R} w prev s (k : Re.cont (R:=R)) :
  Re.match_lit w prev s k =
  if startswith s w then k (last_or prev w) (drop (length w) s) else None.
Proof.
  revert prev s. induction w as [|a w IH]; intros prev s; [by destruct s|].
  destruct s as [|c s]; [done|]. simpl.
  case_bool_decide as Hac; [|done]. subst c. simpl.
  by rewrite IH, last_or_cons.
Qed.

Lemma sub_from_skip r repl prev m rest :
  Re.sub_from r repl prev (length m) (m ++ rest) =
  Re.sub_from r repl (last_or prev m) 0 rest.
Proof.
  revert prev. induction m as [|c m IH]; intros prev; [done|].
  simpl. by rewrite IH, last_or_cons.
Qed.

Lemma split_from_skip r prev cur m rest :
  Re.split_from r prev (length m) cur (m ++ rest) =
  Re.split_from r (last_or prev m) 0 cur rest.
Proof.
  revert prev. induction m as [|c m IH]; intros prev; [done|].
  simpl. by rewrite IH, last_or_cons.
Qed.

End MatcherFacts.

(** ** Normalization *)

Section Normalize.
Implicit Types s : pystr.

Lemma match_len_spaces prev c s :
  Re.match_len (Re.PlusCls isspace) prev (c :: s) =
  if isspace c then Some (S (length s - length (lstrip s))) else None.
Proof.
  unfold Re.match_len, Re.PlusCls. simpl Re.match_re.
  destruct (isspace c); [|done].
  rewrite (match_star_greedy isspace (Some c) s (fun rest => S (length s) - length rest)).
  rewrite skip_class_lstrip. pose proof (skip_class_length isspace s) as Hle.
  rewrite skip_class_lstrip in Hle. f_equal. lia.
Qed.

Lemma sub_spaces_collapse s :
  (forall prev, Re.sub_from (Re.PlusCls isspace) (py " ") prev 0 s = collapse false s)
  /\ (forall prev, Re.sub_from (Re.PlusCls isspace) (py " ") prev
                     (length s - length (lstrip s)) s = collapse true s).
Proof.
  induction s as [|c s [IH0 IH1]]; [done|]. split; intros prev.
  - cbn [Re.sub_from]. rewrite match_len_spaces. simpl collapse.
    destruct (isspace c).
    + simpl. by rewrite IH1.
    + by rewrite IH0.
  - simpl lstrip. simpl collapse. destruct (isspace c) eqn:Hc.
    + pose proof (skip_class_length isspace s) as Hle.
      rewrite skip_class_lstrip in Hle.
      replace (length (c :: s) - length (lstrip s))
        with (S (length s - length (lstrip s))) by (simpl; lia).
      cbn [Re.sub_from]. apply IH1.
    + rewrite Nat.sub_diag. cbn [Re.sub_from]. rewrite match_len_spaces, Hc.
      by rewrite IH0.
Qed.

Lemma _normalize_eq text :
  _normalize text = collapse false (lower (strip (or_else text []))).
Proof. unfold _normalize, Re.sub. apply sub_spaces_collapse. Qed.

Lemma collapse_single_spaced b s : single_spaced b (collapse b s).
Proof.
  revert b. induction s as [|c s IH]; intros b; [done|]. simpl.
  destruct (isspace c) eqn:Hc.
  - destruct b; [apply IH|]. apply single_spaced_cons.
    split; [done|]. apply IH.
  - apply single_spaced_cons. rewrite Hc. split; [done|]. apply IH.
Qed.

Lemma collapse_id b s : single_spaced b s -> collapse b s = s.
Proof.
  revert b. induction s as [|c s IH]; intros b; [done|]. simpl.
  destruct (isspace c).
  - intros (-> & -> & Hs). f_equal. by apply IH.
  - intros Hs. f_equal. by apply IH.
Qed.

Lemma collapse_no_lead b s : no_lead s -> no_lead (collapse b s).
Proof. destruct s as [|c s]; [done|]. simpl. intros Hc. rewrite Hc. exact Hc. Qed.

Lemma collapse_nil s : collapse true s = [] -> forallb isspace s = true.
Proof.
  induction s as [|c s IH]; [done|]. simpl.
  destruct (isspace c); [|done]. apply IH.
Qed.

Lemma all_spaces_trail s : forallb isspace s = true -> no_trail s -> s = [].
Proof.
  induction s as [|c s IH]; [done|]. simpl. intros [Hc Hs]%andb_prop Ht.
  destruct s as [|d s].
  - unfold no_trail in Ht. simpl in Ht. congruence.
  - apply no_trail_cons in Ht; [|done]. by specialize (IH Hs Ht).
Qed.

Lemma collapse_no_trail b s : no_trail s -> no_trail (collapse b s).
Proof.
  revert b. induction s as [|c s IH]; intros b; [done|]. intros Ht.
  destruct s as [|d s].
  - unfold no_trail in Ht. simpl in Ht. simpl. by rewrite Ht.
  - apply no_trail_cons in Ht; [|done].
    change (collapse b (c :: d :: s)) with
      (if isspace c
       then if b then collapse true (d :: s) else " "%char :: collapse true (d :: s)
       else c :: collapse false (d :: s)).
    destruct (isspace c) eqn:Hc.
    + destruct b; [by apply IH|].
      destruct (collapse true (d :: s)) as [|e r] eqn:Hr.
      * apply collapse_nil in Hr. by apply all_spaces_trail in Hr.
      * apply no_trail_cons; [done|]. rewrite <- Hr. by apply IH.
    + destruct (collapse false (d :: s)) as [|e r] eqn:Hr.
      * exact Hc.
      * apply no_trail_cons; [done|]. rewrite <- Hr. by apply IH.
Qed.

Lemma collapse_lowered b s : lowered s -> lowered (collapse b s).
Proof.
  unfold lowered. intros H. revert b.
  induction H as [|c s Hc Hs IH]; intros b; [done|]. simpl.
  destruct (isspace c); [destruct b|]; try constructor; auto.
Qed.

Lemma lower_lowered s : lowered (lower s).
Proof.
  unfold lowered, lower. induction s as [|c s IH]; [done|].
  simpl. constructor; [apply lower_char_idemp | done].
Qed.

Lemma lower_id s : lowered s -> lower s = s.
Proof.
  unfold lowered, lower. induction 1 as [|c s Hc Hs IH]; [done|].
  simpl. by rewrite Hc, IH.
Qed.

Lemma lower_no_lead s : no_lead s -> no_lead (lower s).
Proof. destruct s as [|c s]; [done|]. simpl. by rewrite isspace_lower_char. Qed.

Lemma last_lower s : last (lower s) = lower_char <$> last s.
Proof.
  unfold lower. induction s as [|c s IH]; [done|].
  destruct s as [|d s]; [done|]. simpl map in *. by rewrite !last_cons_cons.
Qed.

Lemma lower_no_trail s : no_trail s -> no_trail (lower s).
Proof.
  unfold no_trail. rewrite last_lower. destruct (last s); [|done].
  simpl. by rewrite isspace_lower_char.
Qed.

(** The result of [_normalize] is in normal form. *)
Lemma _normalize_normalized text : normalized (_normalize text).
Proof.
  rewrite _normalize_eq. split_and!.
  - apply collapse_no_lead, lower_no_lead, strip_no_lead.
  - apply collapse_no_trail, lower_no_trail, strip_no_trail.
  - apply collapse_single_spaced.
  - apply collapse_lowered, lower_lowered.
Qed.

(** A text in normal form is left as it is. *)
Lemma normalized_fixed s : normalized s -> _normalize (Some s) = s.
Proof.
  intros (Hl & Ht & Hs & Hlow).
  rewrite _normalize_eq, or_else_some, strip_id, lower_id by done.
  by apply collapse_id.
Qed.

End Normalize.

(** ** The candidate set *)

Section Candidates.
Context {V : Type}.
Implicit Types (env : environ) (settings : Settings V) (l ws out : list pystr).

Lemma dedup_first_filter (P : pystr -> Prop) `{!forall x, Decision (P x)} l :
  filter P (dedup_first l) = dedup_first (filter P l).
Proof.
  induction l as [|x l IH]; [done|]. simpl dedup_first.
  rewrite !filter_cons. destruct (decide (P x)) as [HP|HP].
  - simpl. f_equal. rewrite <- IH, !list_filter_filter.
    apply list_filter_iff. tauto.
  - rewrite <- IH, list_filter_filter. apply list_filter_iff.
    intros y. split; [tauto|]. intros Hy. split; [done|]. congruence.
Qed.

Lemma dedup_first_NoDup l : NoDup (dedup_first l).
Proof.
  induction l as [|x l IH]; [constructor|]. simpl. constructor.
  - rewrite list_elem_of_filter. tauto.
  - by apply NoDup_filter.
Qed.

Lemma dedup_first_elem_of l x : x ∈ dedup_first l <-> x ∈ l.
Proof.
  induction l as [|y l IH]; [done|]. simpl.
  rewrite !elem_of_cons, list_elem_of_filter, IH.
  destruct (decide (x = y)); tauto.
Qed.

Lemma collect_aliases_spec parts aliases :
  collect_aliases parts aliases =
  aliases ++ filter (fun w => w <> []) ((fun part => _normalize (Some part)) <$> parts).
Proof.
  revert aliases. induction parts as [|part parts IH]; intros aliases.
  - by rewrite app_nil_r.
  - simpl collect_aliases. rewrite fmap_cons, filter_cons.
    destruct (_normalize (Some part)) as [|c p] eqn:Hp.
    + rewrite decide_False by (intros H; by apply H). apply IH.
    + rewrite decide_True by done. rewrite IH. by rewrite <- app_assoc.
Qed.

Lemma aliases_of_spec env :
  aliases_of env =
  filter (fun w => w <> []) ((fun part => _normalize (Some part)) <$> alias_parts env).
Proof.
  unfold aliases_of, alias_parts. destruct (env_aliases env); [done|].
  by rewrite collect_aliases_spec.
Qed.

(** The loop keeps [seen] equal to the set of the entries of [out]; it
    appends the entries of [ws] that are new. *)
Lemma dedup_loop_spec ws (seen : gset pystr) out :
  dedup_loop ws seen out =
  out ++ dedup_first (filter (fun w => w <> [] /\ w ∉ seen) ws).
Proof.
  revert seen out. induction ws as [|w ws IH]; intros seen out.
  - by rewrite app_nil_r.
  - rewrite filter_cons. destruct w as [|c w].
    + rewrite decide_False by tauto. apply IH.
    + cbn [dedup_loop]. case_bool_decide as Hseen.
      * rewrite decide_False by tauto. apply IH.
      * rewrite decide_True by done. rewrite IH, <- app_assoc. simpl.
        do 2 f_equal. rewrite dedup_first_filter, list_filter_filter.
        f_equal. apply list_filter_iff. intros y.
        rewrite not_elem_of_union, not_elem_of_singleton. tauto.
Qed.

Lemma filter_nonempty_twice l :
  filter (fun w : pystr => w <> []) (filter (fun w : pystr => w <> []) l)
  = filter (fun w : pystr => w <> []) l.
Proof. rewrite list_filter_filter. apply list_filter_iff. tauto. Qed.

Lemma _wake_candidates_spec env settings :
  _wake_candidates env settings =
  dedup_first
    (filter (fun w => w <> [])
       (_normalize (wake_word settings)
        :: ((fun part => _normalize (Some part)) <$> alias_parts env))).
Proof.
  unfold _wake_candidates. rewrite dedup_loop_spec. simpl app.
  assert (_normalize (Some (or_else (wake_word settings) [])) = _normalize (wake_word settings))
    as -> by (by rewrite !_normalize_eq, or_else_some).
  rewrite aliases_of_spec. f_equal.
  etrans; [apply list_filter_iff with (P2 := fun w : pystr => w <> [])|].
  - intros y. split; [tauto|]. intros Hy. split; [done|]. apply not_elem_of_empty.
  - rewrite !filter_cons, filter_nonempty_twice. done.
Qed.

Lemma _wake_candidates_nonempty env settings w :
  w ∈ _wake_candidates env settings -> w <> [].
Proof.
  rewrite _wake_candidates_spec, dedup_first_elem_of, list_elem_of_filter. tauto.
Qed.

Lemma _wake_candidates_NoDup env settings : NoDup (_wake_candidates env settings).
Proof. rewrite _wake_candidates_spec. apply dedup_first_NoDup. Qed.

Lemma _wake_candidates_normalized env settings w :
  w ∈ _wake_candidates env settings -> normalized w.
Proof.
  rewrite _wake_candidates_spec, dedup_first_elem_of, list_elem_of_filter.
  rewrite elem_of_cons, list_elem_of_fmap.
  intros [_ [->|(part & -> & _)]]; apply _normalize_normalized.
Qed.

End Candidates.

(** ** Detection *)

Section Detection.
Context {V : Type}.
Implicit Types (env : environ) (settings : Settings V) (s w : pystr).
Implicit Types (stt : ListenArgs V -> option pystr).

Lemma startswith_spec s w : startswith s w = true <-> exists r, s = w ++ r.
Proof.
  revert s. induction w as [|a w IH]; intros s.
  - destruct s; simpl; split; eauto.
  - destruct s as [|c s]; simpl.
    + split; [done|]. by intros [r Hr].
    + rewrite andb_true_iff, bool_decide_eq_true, IH. split.
      * intros [-> [r ->]]. eauto.
      * intros [r Hr]. injection Hr as -> ->. eauto.
Qed.

Lemma contains_spec s w : contains s w = true <-> substring w s.
Proof.
  unfold substring. induction s as [|c s IH].
  - change (contains [] w) with (startswith [] w || false).
    rewrite orb_false_r, startswith_spec. split.
    + intros [r Hr]. by exists [], r.
    + intros (l & r & Hs). destruct l; [by exists r|done].
  - change (contains (c :: s) w) with (startswith (c :: s) w || contains s w).
    rewrite orb_true_iff, startswith_spec, IH. split.
    + intros [[r Hr]|(l & r & Hs)]; [by exists [], r|].
      exists (c :: l), r. by rewrite Hs.
    + intros (l & r & Hs). destruct l as [|d l]; [left; by exists r|].
      right. exists l, r. by injection Hs.
Qed.

Lemma exact_match_spec (candidates : list pystr) norm :
  existsb (fun w => bool_decide (w ∈ PyStr.split norm) || contains norm w) candidates = true
  <-> exact_match candidates norm.
Proof.
  unfold exact_match. rewrite existsb_exists. split.
  - intros (w & Hin & Hw). exists w. rewrite list_elem_of_In. split; [done|].
    apply orb_true_iff in Hw as [Hw|Hw].
    + left. by apply bool_decide_eq_true in Hw.
    + right. by apply contains_spec.
  - intros (w & Hin & Hw). exists w. rewrite <- list_elem_of_In. split; [done|].
    apply orb_true_iff. destruct Hw as [Hw|Hw].
    + left. by apply bool_decide_eq_true.
    + right. by apply contains_spec.
Qed.

Lemma fuzzy_candidates_spec word (candidates : list pystr) :
  fuzzy_candidates word candidates = true <->
  exists cand, cand ∈ candidates /\ _edit_distance_le1 (Some word) (Some cand) = true.
Proof.
  induction candidates as [|cand candidates IH]; simpl.
  - split; [done|]. intros (cand & Hin & _). by apply elem_of_nil in Hin.
  - destruct (_edit_distance_le1 (Some word) (Some cand)) eqn:Hd.
    + split; [|done]. intros _. exists cand. split; [left|done].
    + rewrite IH. split.
      * intros (cand' & Hin & Hd'). exists cand'. split; [by right|done].
      * intros (cand' & Hin & Hd'). apply elem_of_cons in Hin as [->|Hin]; [congruence|].
        by exists cand'.
Qed.

(** A token takes part in the fuzzy pass exactly when it has 2 to 6
    characters. *)
Lemma fuzzy_words_spec (words candidates : list pystr) :
  fuzzy_words words candidates = true <->
  exists word cand, word ∈ words /\ cand ∈ candidates
    /\ 2 <= length word <= 6
    /\ _edit_distance_le1 (Some word) (Some cand) = true.
Proof.
  induction words as [|word words IH]; simpl.
  - split; [done|]. intros (word & cand & Hin & _). by apply elem_of_nil in Hin.
  - destruct (bool_decide (length word < 2) || bool_decide (6 < length word)) eqn:Hlen.
    + rewrite IH. apply orb_true_iff in Hlen.
      rewrite !bool_decide_eq_true in Hlen. split.
      * intros (word' & cand & Hin & Hrest). exists word', cand. split; [by right|done].
      * intros (word' & cand & Hin & Hc & Hl & Hd).
        apply elem_of_cons in Hin as [->|Hin]; [lia|]. by exists word', cand.
    + apply orb_false_iff in Hlen as [Hlo Hhi].
      apply bool_decide_eq_false in Hlo, Hhi.
      destruct (fuzzy_candidates word candidates) eqn:Hf.
      * split; [|done]. intros _.
        apply fuzzy_candidates_spec in Hf as (cand & Hc & Hd).
        exists word, cand. split_and!; [left|done|lia|lia|done].
      * rewrite IH. split.
        -- intros (word' & cand & Hin & Hrest). exists word', cand. split; [by right|done].
        -- intros (word' & cand & Hin & Hc & Hl & Hd).
           apply elem_of_cons in Hin as [->|Hin]; [|by exists word', cand].
           assert (fuzzy_candidates word candidates = true) as Hf'
             by (apply fuzzy_candidates_spec; eauto).
           congruence.
Qed.

Lemma default_not_off : strip (py "1") ∉ fuzzy_off_values.
Proof.
  unfold fuzzy_off_values. rewrite !not_elem_of_cons.
  split_and!; [by vm_compute..|apply not_elem_of_nil].
Qed.

Lemma empty_not_off : strip [] ∉ fuzzy_off_values.
Proof.
  unfold fuzzy_off_values. rewrite !not_elem_of_cons.
  split_and!; [by vm_compute..|apply not_elem_of_nil].
Qed.

(** The fuzzy pass is off exactly when the override, with the whitespace
    around it removed, is one of the three values. *)
Lemma fuzzy_enabled_spec env :
  fuzzy_enabled env = false <->
  exists v, env !! YUI_WAKE_WORD_FUZZY = Some v /\ strip v ∈ fuzzy_off_values.
Proof.
  unfold fuzzy_enabled, getenv. fold fuzzy_off_values.
  rewrite negb_false_iff, bool_decide_eq_true.
  destruct (env !! YUI_WAKE_WORD_FUZZY) as [[|c v]|] eqn:Hv;
    cbn [or_else truthy or_empty].
  - split; [by intros ?%default_not_off|].
    intros (v & [= <-] & H). by apply empty_not_off in H.
  - split; [by eauto|]. by intros (v' & [= <-] & H).
  - split; [by intros ?%default_not_off|]. by intros (v & ? & _).
Qed.

(** With no candidate, the function returns at once. *)
Lemma wait_for_wake_word_disabled env settings :
  _wake_candidates env settings = [] ->
  wait_for_wake_word env settings = Ret {| heard := true; transcript := None |}.
Proof. unfold wait_for_wake_word. by intros ->. Qed.

(** With a candidate, [listen] is called once, with the settings handed
    over, and the result depends on the transcript. *)
Lemma wait_for_wake_word_run env settings stt :
  _wake_candidates env settings <> [] ->
  run stt (wait_for_wake_word env settings) =
  (let transcript := stt (listen_args settings) in
   let candidates := _wake_candidates env settings in
   let norm := _normalize transcript in
   let words := PyStr.split norm in
   if negb (truthy transcript) then {| heard := false; transcript := None |}
   else if existsb (fun w => bool_decide (w ∈ words) || contains norm w) candidates
   then {| heard := true; transcript := transcript |}
   else {| heard := fuzzy_enabled env && fuzzy_words words candidates;
           transcript := transcript |},
   [listen_args settings]).
Proof.
  unfold wait_for_wake_word. destruct (_wake_candidates env settings) as [|w ws] eqn:Hc; [done|].
  intros _. cbn [run]. cbv zeta.
  destruct (negb (truthy (stt (listen_args settings)))); [done|].
  destruct (existsb _ _); [done|].
  destruct (fuzzy_enabled env); [|done]. by destruct (fuzzy_words _ _).
Qed.

End Detection.

(** ** The pattern of [strip_wake_word] *)

Section WakePattern.
Implicit Types (s w m rest : pystr) (prev : option ascii) (ws : list pystr).

Lemma filter_nonempty_id ws : [] ∉ ws -> List.filter nonempty ws = ws.
Proof.
  induction ws as [|w ws IH]; [done|]. intros [Hw Hws]%not_elem_of_cons.
  simpl. destruct w; [done|]. simpl. by rewrite IH.
Qed.

Lemma find_pointwise {A} (f g : A -> bool) (l : list A) :
  (forall x, f x = g x) -> List.find f l = List.find g l.
Proof. intros Hfg. induction l as [|x l IH]; [done|]. simpl. by rewrite Hfg, IH. Qed.

Lemma match_alternation {R} ws prev s (k : Re.cont (R:=R)) :
  ws <> [] ->
  Re.match_re (Re.alternation ws) prev s k =
  match List.find (fun w => bool_decide (is_Some (Re.match_lit w prev s k))) ws with
  | Some w => Re.match_lit w prev s k
  | None => None
  end.
Proof.
  induction ws as [|w ws IH]; [done|]. intros _.
  destruct ws as [|w' ws].
  - simpl. destruct (Re.match_lit w prev s k) eqn:Hw.
    + rewrite bool_decide_eq_true_2 by eauto. done.
    + rewrite bool_decide_eq_false_2; [done|]. by intros [? ?].
  - change (Re.alternation (w :: w' :: ws))
      with (Re.Alt (Re.Lit w) (Re.alternation (w' :: ws))).
    cbn [Re.match_re List.find].
    destruct (Re.match_lit w prev s k) eqn:Hw.
    + rewrite bool_decide_eq_true_2 by eauto. done.
    + rewrite bool_decide_eq_false_2 by (by intros [? ?]). by apply IH.
Qed.

(** After the candidate: the boundary, then the optional punctuation and
    the whitespace, which cannot fail. *)
Lemma match_trailer {R} prev s (f : pystr -> R) :
  Re.match_re
    (Re.Seq Re.Bnd (Re.Seq (Re.Opt (Re.Cls (Re.one_of (py ":,")))) (Re.StarCls isspace)))
    prev s (fun _ rest => Some (f rest)) =
  if Re.word_boundary prev s then Some (f (lstrip (drop_punct s))) else None.
Proof.
  cbn [Re.match_re]. destruct (Re.word_boundary prev s); [|done].
  unfold drop_punct, is_punct. destruct s as [|c s].
  - done.
  - destruct (Re.one_of (py ":,") c).
    + by rewrite match_star_greedy, skip_class_lstrip.
    + by rewrite match_star_greedy, skip_class_lstrip.
Qed.

Lemma match_len_wake ws prev s :
  ws <> [] -> [] ∉ ws ->
  Re.match_len (wake_pattern ws) prev s =
  match chosen ws prev s with
  | Some w => Some (length s - length (after_match w s))
  | None => None
  end.
Proof.
  intros Hne Hnil. unfold Re.match_len, wake_pattern, chosen.
  rewrite filter_nonempty_id by done. cbn [Re.match_re].
  destruct (Re.word_boundary prev s); [|done].
  rewrite match_alternation by done.
  assert (forall w, Re.match_lit w prev s
     (fun prev' s' => Re.match_re
        (Re.Seq Re.Bnd (Re.Seq (Re.Opt (Re.Cls (Re.one_of (py ":,")))) (Re.StarCls isspace)))
        prev' s' (fun _ rest => Some (length s - length rest)))
     = if whole_word prev s w then Some (length s - length (after_match w s)) else None)
    as Hlit.
  { intros w. rewrite match_lit_startswith. unfold whole_word, after_match.
    destruct (startswith s w); [|done].
    by rewrite (match_trailer _ _ (fun rest => length s - length rest)). }
  erewrite (find_pointwise _ (whole_word prev s)).
  - destruct (List.find (whole_word prev s) ws) as [w|] eqn:Hfind; [|done].
    rewrite Hlit. apply find_some in Hfind as [_ ->]. done.
  - intros w. rewrite Hlit. destruct (whole_word prev s w).
    + by rewrite bool_decide_eq_true_2 by eauto.
    + rewrite bool_decide_eq_false_2; [done|]. by intros [? ?].
Qed.

End WakePattern.

(** ** Sorting the candidates *)

Section Sorting.
Implicit Types (w : pystr) (l ws : list pystr).

Lemma insert_by_len_perm w l : insert_by_len w l ≡ₚ w :: l.
Proof.
  induction l as [|x l IH]; [done|]. simpl.
  case_bool_decide; [done|]. rewrite IH. apply Permutation_swap.
Qed.

Lemma sorted_by_len_desc_perm ws : sorted_by_len_desc ws ≡ₚ ws.
Proof.
  induction ws as [|w ws IH]; [done|]. simpl.
  by rewrite insert_by_len_perm, IH.
Qed.

Lemma sorted_by_len_desc_elem_of ws w : w ∈ sorted_by_len_desc ws <-> w ∈ ws.
Proof. by rewrite sorted_by_len_desc_perm. Qed.

Lemma insert_by_len_sorted w l :
  StronglySorted longer l -> StronglySorted longer (insert_by_len w l).
Proof.
  induction 1 as [|x l Hl IH Hx]; simpl.
  - repeat constructor.
  - case_bool_decide as Hlen.
    + constructor; [by constructor|]. constructor; [done|].
      eapply Forall_impl; [exact Hx|]. unfold longer. intros y Hy. lia.
    + constructor; [done|]. rewrite insert_by_len_perm.
      constructor; [unfold longer; lia|done].
Qed.

Lemma sorted_by_len_desc_sorted ws : StronglySorted longer (sorted_by_len_desc ws).
Proof.
  induction ws as [|w ws IH]; [constructor|]. simpl. by apply insert_by_len_sorted.
Qed.

(** In a list sorted by decreasing length, the first entry that passes a
    test is a longest one. *)
Lemma find_longest (f : pystr -> bool) l w :
  StronglySorted longer l -> List.find f l = Some w ->
  forall w', w' ∈ l -> f w' = true -> length w' <= length w.
Proof.
  induction 1 as [|x l Hl IH Hx]; [done|]. simpl.
  destruct (f x) eqn:Hfx.
  - intros [= <-] w' [->|Hin]%elem_of_cons _; [lia|].
    rewrite Forall_forall in Hx. by apply Hx.
  - intros Hfind w' [->|Hin]%elem_of_cons Hw'; [congruence|]. by apply IH.
Qed.

Lemma find_longest_sorted (f : pystr -> bool) ws w :
  List.find f (sorted_by_len_desc ws) = Some w ->
  w ∈ ws /\ f w = true /\ forall w', w' ∈ ws -> f w' = true -> length w' <= length w.
Proof.
  intros Hfind. pose proof (find_some _ _ Hfind) as [Hin Hf].
  apply list_elem_of_In in Hin. rewrite sorted_by_len_desc_elem_of in Hin.
  split; [done|]. split; [done|].
  intros w' Hw'. apply (find_longest f _ w (sorted_by_len_desc_sorted ws) Hfind).
  by apply sorted_by_len_desc_elem_of.
Qed.

Lemma find_none_sorted (f : pystr -> bool) ws w :
  List.find f (sorted_by_len_desc ws) = None -> w ∈ ws -> f w = false.
Proof.
  intros Hfind Hin. eapply find_none; [exact Hfind|].
  apply list_elem_of_In. by rewrite sorted_by_len_desc_elem_of.
Qed.

End Sorting.

(** ** Stripping *)

Section Stripping.
Implicit Types (s w m p sp rest out : pystr) (prev : option ascii).
Implicit Types (candidates : list pystr).

Lemma occurs_at_whole_word candidates prev s w :
  occurs_at candidates prev s w <->
  w ∈ candidates /\ Re.word_boundary prev s = true /\ whole_word prev s w = true.
Proof.
  unfold occurs_at, whole_word, prefix.
  rewrite andb_true_iff, startswith_spec. tauto.
Qed.

Lemma chosen_longest candidates prev s w :
  chosen (sorted_by_len_desc candidates) prev s = Some w ->
  longest_at candidates prev s w.
Proof.
  unfold chosen, longest_at. destruct (Re.word_boundary prev s) eqn:Hb; [|done].
  intros (Hin & Hw & Hmax)%find_longest_sorted. split.
  - by apply occurs_at_whole_word.
  - intros w' (Hin' & _ & Hw')%occurs_at_whole_word. by apply Hmax.
Qed.

Lemma chosen_none candidates prev s w :
  chosen (sorted_by_len_desc candidates) prev s = None ->
  ~ occurs_at candidates prev s w.
Proof.
  unfold chosen. intros Hc (Hin & Hb & Hw)%occurs_at_whole_word.
  rewrite Hb in Hc. pose proof (find_none_sorted _ _ _ Hc Hin). congruence.
Qed.

Lemma drop_punct_split s :
  exists p, s = p ++ drop_punct s /\
    match p with
    | [] => match s with c :: _ => is_punct c = false | [] => True end
    | [c] => is_punct c = true
    | _ => False
    end.
Proof.
  destruct s as [|c s]; [by exists []|]. simpl.
  destruct (is_punct c) eqn:Hc; [by exists [c]|by exists []].
Qed.

Lemma lstrip_split s :
  exists sp, s = sp ++ lstrip s /\ Forall (fun c => isspace c = true) sp.
Proof.
  destruct (skip_class_split isspace s) as (sp & Hs & Hsp & _).
  rewrite skip_class_lstrip in Hs. eauto.
Qed.

(** What follows a candidate splits into the punctuation, the whitespace
    and the rest of the text. *)
Lemma after_match_split w r :
  exists p sp, r = p ++ sp ++ after_match w (w ++ r)
               /\ trailing p sp (after_match w (w ++ r)).
Proof.
  unfold after_match. rewrite drop_app_length.
  destruct (drop_punct_split r) as (p & Hp & Hpunct).
  destruct (lstrip_split (drop_punct r)) as (sp & Hsp & Hspaces).
  exists p, sp. split; [by rewrite <- Hsp|].
  unfold trailing. split_and!; [|done|apply lstrip_no_lead].
  rewrite <- Hsp. destruct p as [|c [|]]; [|done..].
  simpl in Hp. by rewrite <- Hp.
Qed.

Lemma sub_from_match r repl prev m rest :
  m <> [] ->
  Re.match_len r prev (m ++ rest) = Some (length m) ->
  Re.sub_from r repl prev 0 (m ++ rest) =
  repl ++ Re.sub_from r repl (last_or prev m) 0 rest.
Proof.
  destruct m as [|c m]; [done|]. intros _ Hlen.
  rewrite <- app_comm_cons in *. simpl length in Hlen.
  cbn [Re.sub_from]. rewrite Hlen. cbv iota beta.
  by rewrite sub_from_skip, last_or_cons.
Qed.

Lemma sub_from_keep r repl prev c s :
  Re.match_len r prev (c :: s) = None ->
  Re.sub_from r repl prev 0 (c :: s) = c :: Re.sub_from r repl (Some c) 0 s.
Proof. intros Hlen. cbn [Re.sub_from]. by rewrite Hlen. Qed.

(** The substitution removes the occurrences from left to right. *)
Lemma sub_wake_removes candidates :
  candidates <> [] -> [] ∉ candidates ->
  forall n s prev, length s <= n ->
    removes candidates prev s
      (Re.sub_from (wake_pattern (sorted_by_len_desc candidates)) [] prev 0 s).
Proof.
  intros Hne Hnil.
  assert (sorted_by_len_desc candidates <> []) as Hne'.
  { intros Hs. apply Hne, Permutation_nil. by rewrite <- Hs, sorted_by_len_desc_perm. }
  assert ([] ∉ sorted_by_len_desc candidates) as Hnil'
    by (by rewrite sorted_by_len_desc_elem_of).
  induction n as [|n IH]; intros s prev Hlen.
  { destruct s; [constructor|simpl in Hlen; lia]. }
  destruct s as [|c s]; [constructor|].
  pose proof (match_len_wake _ prev (c :: s) Hne' Hnil') as Hm.
  destruct (chosen (sorted_by_len_desc candidates) prev (c :: s)) as [w|] eqn:Hch.
  - pose proof (chosen_longest _ _ _ _ Hch) as Hlong.
    assert (w <> []) as Hw.
    { intros ->. by destruct Hlong as [[Hin _] _]. }
    destruct (proj1 Hlong) as (_ & [r Hr] & _).
    destruct (after_match_split w r) as (p & sp & Hsplit & Htrail).
    rewrite Hr in Hm, Hlong, Hlen |- *. clear Hch Hr.
    remember (after_match w (w ++ r)) as rest eqn:Hrest. clear Hrest.
    subst r.
    assert (Re.sub_from (wake_pattern (sorted_by_len_desc candidates)) [] prev 0
              (w ++ p ++ sp ++ rest)
            = Re.sub_from (wake_pattern (sorted_by_len_desc candidates)) []
                (last_or prev (w ++ p ++ sp)) 0 rest) as ->.
    { replace (w ++ p ++ sp ++ rest) with ((w ++ p ++ sp) ++ rest) in *
        by (by rewrite <- !app_assoc).
      apply (sub_from_match _ [] prev (w ++ p ++ sp) rest).
      - by destruct w.
      - rewrite Hm. f_equal. rewrite length_app. lia. }
    apply removes_occurrence; [done..|].
    apply IH. rewrite !length_app in Hlen. destruct w; [done|]. simpl in Hlen. lia.
  - rewrite sub_from_keep by done. apply removes_keep.
    + intros w. by apply chosen_none.
    + apply IH. simpl in Hlen. lia.
Qed.

(** *** The result of the removal is determined *)

Lemma spaces_rest_inj sp1 rest1 sp2 rest2 :
  Forall (fun c => isspace c = true) sp1 -> no_lead rest1 ->
  Forall (fun c => isspace c = true) sp2 -> no_lead rest2 ->
  sp1 ++ rest1 = sp2 ++ rest2 -> sp1 = sp2 /\ rest1 = rest2.
Proof.
  intros H1. revert sp2. induction H1 as [|c sp1 Hc _ IH]; intros sp2 Hr1 H2 Hr2 Heq.
  - destruct H2 as [|d sp2 Hd _]; [done|].
    simpl in Heq. subst rest1. simpl in Hr1. congruence.
  - destruct H2 as [|d sp2 Hd H2].
    + simpl in Heq. subst rest2. simpl in Hr2. congruence.
    + simpl in Heq. injection Heq as -> Heq.
      destruct (IH sp2 Hr1 H2 Hr2 Heq) as [-> ->]. done.
Qed.

Lemma trailing_inj p1 sp1 rest1 p2 sp2 rest2 :
  trailing p1 sp1 rest1 -> trailing p2 sp2 rest2 ->
  p1 ++ sp1 ++ rest1 = p2 ++ sp2 ++ rest2 ->
  p1 = p2 /\ sp1 = sp2 /\ rest1 = rest2.
Proof.
  intros (Hp1 & Hs1 & Hr1) (Hp2 & Hs2 & Hr2) Heq.
  destruct p1 as [|c1 [|]], p2 as [|c2 [|]]; try done; simpl in Heq.
  - by destruct (spaces_rest_inj _ _ _ _ Hs1 Hr1 Hs2 Hr2 Heq) as [-> ->].
  - rewrite Heq in Hp1. congruence.
  - rewrite <- Heq in Hp2. congruence.
  - injection Heq as -> Heq.
    by destruct (spaces_rest_inj _ _ _ _ Hs1 Hr1 Hs2 Hr2 Heq) as [-> ->].
Qed.

Lemma longest_at_inj candidates prev s w1 w2 :
  longest_at candidates prev s w1 -> longest_at candidates prev s w2 -> w1 = w2.
Proof.
  intros [Ho1 Hmax1] [Ho2 Hmax2].
  pose proof (Hmax1 _ Ho2). pose proof (Hmax2 _ Ho1).
  destruct Ho1 as (_ & [r1 Hr1] & _), Ho2 as (_ & [r2 Hr2] & _).
  rewrite Hr1 in Hr2. apply app_inj_1 in Hr2 as [? _]; [done|lia].
Qed.

Lemma removes_deterministic candidates prev s out1 out2 :
  [] ∉ candidates ->
  removes candidates prev s out1 -> removes candidates prev s out2 -> out1 = out2.
Proof.
  intros Hnil H1. revert out2.
  induction H1 as [prev|prev c s out1 Hno H1 IH|prev w p sp rest out1 Hlong Htrail H1 IH];
    intros out2 H2.
  - remember [] as s eqn:Hs in H2.
    destruct H2 as [prev|prev c s out2 Hno H2|prev w2 p2 sp2 rest2 out2 Hlong2 Htrail2 H2];
      [done..|].
    destruct Hlong2 as [(Hin & _) _].
    apply app_eq_nil in Hs as [-> _]. by apply Hnil in Hin.
  - remember (c :: s) as s' eqn:Hs.
    destruct H2 as [prev|prev c2 s2 out2 Hno2 H2|prev w2 p2 sp2 rest2 out2 Hlong2 Htrail2 H2];
      [done| |].
    + injection Hs as -> ->. f_equal. by apply IH.
    + destruct Hlong2 as [Ho _]. by apply Hno in Ho.
  - remember (w ++ p ++ sp ++ rest) as s eqn:Hs.
    destruct H2 as [prev|prev c s out2 Hno H2|prev w2 p2 sp2 rest2 out2 Hlong2 Htrail2 H2].
    + destruct Hlong as [(Hin & _) _].
      symmetry in Hs. apply app_eq_nil in Hs as [-> _]. by apply Hnil in Hin.
    + destruct Hlong as [Ho _]. by apply Hno in Ho.
    + pose proof (longest_at_inj _ _ _ _ _ Hlong Hlong2) as <-.
      apply app_inv_head in Hs.
      destruct (trailing_inj _ _ _ _ _ _ Htrail Htrail2) as (<- & <- & <-); [done|].
      by apply IH.
Qed.

(** *** The result of the removal keeps the normal form *)

Lemma removes_no_lead candidates prev s out :
  removes candidates prev s out -> no_lead s -> no_lead out.
Proof.
  induction 1 as [|prev c s out _ _ _|prev w p sp rest out _ (_ & _ & Hrest) _ IH];
    [done..|].
  intros _. by apply IH.
Qed.

Lemma single_spaced_app b m rest :
  single_spaced b (m ++ rest) -> single_spaced false rest.
Proof.
  revert b. induction m as [|c m IH]; intros b; [apply single_spaced_weaken|].
  rewrite <- app_comm_cons. intros [_ H]%single_spaced_cons. by eapply IH.
Qed.

Lemma single_spaced_no_lead b s :
  single_spaced false s -> no_lead s -> single_spaced b s.
Proof.
  destruct s as [|c s]; [done|]. simpl. intros H Hc. by rewrite Hc in *.
Qed.

Lemma removes_single_spaced candidates prev s out b :
  removes candidates prev s out -> single_spaced b s -> single_spaced b out.
Proof.
  intros H. revert b.
  induction H as [|prev c s out _ _ IH|prev w p sp rest out _ (_ & _ & Hrest) H IH];
    intros b; [done| |].
  - rewrite !single_spaced_cons. intros [Hc Hs]. split; [done|]. by apply IH.
  - rewrite !app_assoc. intros Hs%single_spaced_app.
    apply single_spaced_no_lead; [by apply IH|].
    by eapply removes_no_lead.
Qed.

Lemma removes_lowered candidates prev s out :
  removes candidates prev s out -> lowered s -> lowered out.
Proof.
  unfold lowered.
  induction 1 as [|prev c s out _ _ IH|prev w p sp rest out _ _ _ IH]; [done| |].
  - intros [Hc Hs]%Forall_cons. constructor; [done|]. by apply IH.
  - rewrite !Forall_app. intros (_ & _ & _ & Hrest). by apply IH.
Qed.

Lemma removes_strip_normalized candidates prev s out :
  removes candidates prev s out -> normalized s -> normalized (strip out).
Proof.
  intros H (_ & _ & Hs & Hlow). split_and!.
  - apply strip_no_lead.
  - apply strip_no_trail.
  - eapply strip_single_spaced, removes_single_spaced; eauto.
  - eapply strip_lowered, removes_lowered; eauto.
Qed.

(** *** [strip_wake_word] *)

Lemma strip_wake_word_removes {V} env text (settings : Settings V) :
  _wake_candidates env settings <> [] ->
  exists out,
    removes (_wake_candidates env settings) None (_normalize text) out
    /\ strip_wake_word env text settings = strip out.
Proof.
  intros Hne. unfold strip_wake_word.
  pose proof (sub_wake_removes (_wake_candidates env settings) Hne) as Hsub.
  destruct (_wake_candidates env settings) as [|w ws] eqn:Hc; [done|].
  eexists. split; [|reflexivity]. unfold Re.sub.
  eapply Hsub; [|reflexivity].
  intros Hin. rewrite <- Hc in Hin. by apply _wake_candidates_nonempty in Hin.
Qed.

Lemma strip_wake_word_normalized {V} env text (settings : Settings V) :
  normalized (strip_wake_word env text settings).
Proof.
  destruct (decide (_wake_candidates env settings = [])) as [Hc|Hc].
  - unfold strip_wake_word. rewrite Hc. apply _normalize_normalized.
  - destruct (strip_wake_word_removes env text settings Hc) as (out & Hout & ->).
    eapply removes_strip_normalized; [exact Hout|]. apply _normalize_normalized.
Qed.

End Stripping.

(** ** The scenarios of the specification *)

Section Scenarios.

Example scenario_exact :
  run (hears "yui dime la hora") (wait_for_wake_word (env_of None None) (settings_of "yui"))
  = ({| heard := true; transcript := Some (py "yui dime la hora") |},
     [listen_args (settings_of "yui")]).
Proof. by vm_compute. Qed.

Example scenario_embedded :
  run (hears "oye yui apaga la luz") (wait_for_wake_word (env_of None None) (settings_of "yui"))
  = ({| heard := true; transcript := Some (py "oye yui apaga la luz") |},
     [listen_args (settings_of "yui")]).
Proof. by vm_compute. Qed.

Example scenario_fuzzy :
  run (hears "yu dime la hora") (wait_for_wake_word (env_of None None) (settings_of "yui"))
  = ({| heard := true; transcript := Some (py "yu dime la hora") |},
     [listen_args (settings_of "yui")]).
Proof. by vm_compute. Qed.

Example scenario_fuzzy_disabled :
  run (hears "yu dime la hora") (wait_for_wake_word (env_of None (Some "0")) (settings_of "yui"))
  = ({| heard := false; transcript := Some (py "yu dime la hora") |},
     [listen_args (settings_of "yui")]).
Proof. by vm_compute. Qed.

Example scenario_no_match :
  run (hears "hola mundo") (wait_for_wake_word (env_of None None) (settings_of "yui"))
  = ({| heard := false; transcript := Some (py "hola mundo") |},
     [listen_args (settings_of "yui")]).
Proof. by vm_compute. Qed.

Example scenario_silence :
  run (fun _ => None) (wait_for_wake_word (env_of None None) (settings_of "yui"))
  = ({| heard := false; transcript := None |},
     [listen_args (settings_of "yui")]).
Proof. by vm_compute. Qed.

Example scenario_disabled :
  run (hears "yui dime la hora") (wait_for_wake_word (env_of None None) (settings_of ""))
  = ({| heard := true; transcript := None |},
     []).
Proof. by vm_compute. Qed.

Example scenario_strip :
  strip_wake_word (env_of None None) (Some (py "YUI: dime la hora")) (settings_of "yui")
  = py "dime la hora".
Proof. by vm_compute. Qed.

Example scenario_strip_twice :
  strip_wake_word (env_of None None) (Some (py "yui hola yui")) (settings_of "yui")
  = py "hola".
Proof. by vm_compute. Qed.

Example scenario_aliases :
  _wake_candidates (env_of (Some "Yuri, juli|yui ;  ; hey  YUI") None) (settings_of " Yui ")
  = [py "yui"; py "yuri"; py "juli"; py "hey yui"].
Proof. by vm_compute. Qed.

Example scenario_longest_alias :
  strip_wake_word (env_of (Some "yui chan") None) (Some (py "Yui chan, dime la hora"))
    (settings_of "yui")
  = py "dime la hora".
Proof. by vm_compute. Qed.

Example scenario_edit_distance :
  _edit_distance_le1 (Some (py "yui")) (Some (py "yuri")) = true
  /\ _edit_distance_le1 (Some (py "abc")) (Some (py "axb")) = false
  /\ levenshtein (py "abc") (py "axb") = 2.
Proof. by vm_compute. Qed.

End Scenarios.

(** ** The specification *)

(** C1. The fuzzy matcher answers [true] exactly when the Levenshtein
    distance between the two strings is 0 or 1. *)
Theorem edit_distance_le1_iff_levenshtein (a b : pystr) :
  _edit_distance_le1 (Some a) (Some b) = true <-> levenshtein a b <= 1.
Proof. by rewrite edit_distance_le1_levenshtein, !or_else_some. Qed.

(** C2, as stated, fails: in "yui hola yui" the second occurrence of the
    candidate is removed too. *)
Lemma strips_first_only_counterexample :
  ~ strips_first_only (env_of None None) (Some (py "yui hola yui")) (settings_of "yui").
Proof.
  intros H.
  specialize (H [] (py "yui") [] (py " ") (py "hola yui")).
  assert (strip_wake_word (env_of None None) (Some (py "yui hola yui")) (settings_of "yui")
          = strip ([] ++ py "hola yui")) as Heq; [|by vm_compute in Heq].
  apply H.
  - by vm_compute.
  - intros u1 c u2 w' Hu. by destruct u1.
  - assert (_wake_candidates (env_of None None) (settings_of "yui") = [py "yui"]) as ->
      by (by vm_compute).
    split.
    + split_and!; [by left|by exists (py " hola yui")|by vm_compute..].
    + intros w' ([->|Hin]%elem_of_cons & _); [done|]. by apply elem_of_nil in Hin.
  - split_and!; [by vm_compute|by repeat constructor|by vm_compute].
Qed.

(** C2, amended. With a candidate, [strip_wake_word] removes from the
    normalized text every whole-word occurrence of a candidate, found from
    left to right, the longest candidate at each position, each with the
    colon or comma right after it, if any, and the whitespace that follows;
    it trims what is left.  That result is the only one. *)
Theorem strip_wake_word_removes_all {V} (env : environ) (text : option pystr)
  (settings : Settings V) :
  _wake_candidates env settings <> [] ->
  exists out,
    removes (_wake_candidates env settings) None (_normalize text) out
    /\ (forall out', removes (_wake_candidates env settings) None (_normalize text) out'
                   -> out' = out)
    /\ strip_wake_word env text settings = strip out.
Proof.
  intros Hne. destruct (strip_wake_word_removes env text settings Hne) as (out & Hout & Heq).
  exists out. split_and!; [done| |done].
  intros out' Hout'. eapply removes_deterministic; [|exact Hout'|exact Hout].
  intros Hin. by apply _wake_candidates_nonempty in Hin.
Qed.

Lemma strip_wake_word_removes_all_witness :
  _wake_candidates (env_of None None) (settings_of "yui") <> []
  /\ exists out,
      removes (_wake_candidates (env_of None None) (settings_of "yui")) None
        (_normalize (Some (py "YUI: dime la hora"))) out
      /\ (forall out',
            removes (_wake_candidates (env_of None None) (settings_of "yui")) None
              (_normalize (Some (py "YUI: dime la hora"))) out' -> out' = out)
      /\ strip_wake_word (env_of None None) (Some (py "YUI: dime la hora")) (settings_of "yui")
         = strip out.
Proof.
  assert (_wake_candidates (env_of None None) (settings_of "yui") <> []) as Hne
    by (by vm_compute).
  split; [exact Hne|].
  exact (strip_wake_word_removes_all (env_of None None) (Some (py "YUI: dime la hora"))
           (settings_of "yui") Hne).
Defined.

(** C3. When the wake word and every alias normalize to the empty string,
    the candidate set is empty and [wait_for_wake_word] returns
    heard = true with no transcript, without a call of [listen]. *)
Theorem wait_for_wake_disabled {V} (env : environ) (settings : Settings V) :
  _normalize (wake_word settings) = [] ->
  Forall (fun part => _normalize (Some part) = []) (alias_parts env) ->
  _wake_candidates env settings = []
  /\ wait_for_wake_word env settings = Ret {| heard := true; transcript := None |}
  /\ forall stt, run stt (wait_for_wake_word env settings)
                 = ({| heard := true; transcript := None |}, []).
Proof.
  intros Hbase Haliases.
  assert (_wake_candidates env settings = []) as Hc.
  { rewrite _wake_candidates_spec, Hbase, filter_cons, decide_False by tauto.
    replace (filter _ _) with (@nil pystr); [done|]. symmetry.
    induction Haliases as [|part parts Hpart _ IH]; [done|].
    rewrite fmap_cons, filter_cons, Hpart, decide_False by tauto. exact IH. }
  split; [done|]. rewrite (wait_for_wake_word_disabled _ _ Hc). done.
Qed.

Lemma wait_for_wake_disabled_witness :
  _wake_candidates (env_of (Some " , ;") None) (settings_of "  ") = []
  /\ wait_for_wake_word (env_of (Some " , ;") None) (settings_of "  ")
     = Ret {| heard := true; transcript := None |}
  /\ forall stt, run stt (wait_for_wake_word (env_of (Some " , ;") None) (settings_of "  "))
                 = ({| heard := true; transcript := None |}, []).
Proof.
  apply (wait_for_wake_disabled (env_of (Some " , ;") None) (settings_of "  ")).
  - by vm_compute.
  - vm_compute. repeat constructor.
Defined.

(** C4. With a candidate, an absent or empty transcript gives
    heard = false with no transcript, after one call of [listen]. *)
Theorem wait_for_wake_silence {V} (env : environ) (settings : Settings V)
  (stt : ListenArgs V -> option pystr) :
  _wake_candidates env settings <> [] ->
  stt (listen_args settings) = None \/ stt (listen_args settings) = Some [] ->
  run stt (wait_for_wake_word env settings)
  = ({| heard := false; transcript := None |}, [listen_args settings]).
Proof.
  intros Hne Hsilent. rewrite wait_for_wake_word_run by done. cbv zeta.
  by destruct Hsilent as [-> | ->].
Qed.

Lemma wait_for_wake_silence_witness :
  run (fun _ => None) (wait_for_wake_word (env_of None None) (settings_of "yui"))
  = ({| heard := false; transcript := None |}, [listen_args (settings_of "yui")]).
Proof.
  apply (wait_for_wake_silence (env_of None None) (settings_of "yui") (fun _ => None)).
  - by vm_compute.
  - by left.
Defined.

(** C5. Normalization is idempotent, for an absent text as well. *)
Theorem normalize_idempotent (x : option pystr) :
  _normalize (Some (_normalize x)) = _normalize x.
Proof. apply normalized_fixed, _normalize_normalized. Qed.

(** C6. The candidate set has no duplicate and no empty entry; it is the
    normalized wake word followed by the normalized aliases in the order
    they are written, without the empty entries, each entry kept where it
    first occurs. *)
Theorem wake_candidates_ordered_unique {V} (env : environ) (settings : Settings V) :
  let base := _normalize (wake_word settings) in
  let aliases := (fun part => _normalize (Some part)) <$> alias_parts env in
  let candidates := _wake_candidates env settings in
  NoDup candidates
  /\ ([] ∉ candidates)
  /\ candidates = dedup_first (filter (fun w => w <> []) (base :: aliases))
  /\ (base <> [] -> head candidates = Some base).
Proof.
  cbv zeta. split_and!.
  - apply _wake_candidates_NoDup.
  - intros Hin. by apply _wake_candidates_nonempty in Hin.
  - apply _wake_candidates_spec.
  - intros Hbase. rewrite _wake_candidates_spec, filter_cons, decide_True by done. done.
Qed.

(** C7. In the fuzzy pass a token is compared with the candidates exactly
    when it has 2 to 6 characters: the wake word is heard exactly when such
    a token is within edit distance one of a candidate, and the transcript
    returned is the original one. *)
Theorem fuzzy_pass_token_bounds {V} (env : environ) (settings : Settings V)
  (stt : ListenArgs V -> option pystr) (original : pystr) :
  let candidates := _wake_candidates env settings in
  let words := PyStr.split (_normalize (Some original)) in
  let result := (run stt (wait_for_wake_word env settings)).1 in
  candidates <> [] ->
  stt (listen_args settings) = Some original ->
  original <> [] ->
  ~ exact_match candidates (_normalize (Some original)) ->
  fuzzy_enabled env = true ->
  transcript result = Some original
  /\ (heard result = true <->
      exists word cand, word ∈ words /\ cand ∈ candidates
        /\ 2 <= length word <= 6
        /\ _edit_distance_le1 (Some word) (Some cand) = true).
Proof.
  cbv zeta. intros Hne Hstt Horig Hexact Hfuzzy.
  rewrite wait_for_wake_word_run by done. cbv zeta. rewrite Hstt.
  destruct original as [|c original]; [done|]. cbn [truthy negb fst].
  destruct (existsb _ _) eqn:Hex; [by apply exact_match_spec in Hex|].
  rewrite Hfuzzy. cbn [transcript heard andb]. split; [done|].
  apply fuzzy_words_spec.
Qed.

Lemma not_exact_match (candidates : list pystr) (norm : pystr) :
  existsb (fun w => bool_decide (w ∈ PyStr.split norm) || contains norm w) candidates = false ->
  ~ exact_match candidates norm.
Proof. intros Hex Hm. apply exact_match_spec in Hm. congruence. Qed.

Lemma fuzzy_pass_token_bounds_witness :
  let candidates := _wake_candidates (env_of None None) (settings_of "yui") in
  let words := PyStr.split (_normalize (Some (py "yu dime la hora"))) in
  let result :=
    (run (hears "yu dime la hora")
       (wait_for_wake_word (env_of None None) (settings_of "yui"))).1 in
  transcript result = Some (py "yu dime la hora")
  /\ (heard result = true <->
      exists word cand, word ∈ words /\ cand ∈ candidates
        /\ 2 <= length word <= 6
        /\ _edit_distance_le1 (Some word) (Some cand) = true).
Proof.
  apply (fuzzy_pass_token_bounds (env_of None None) (settings_of "yui")
           (hears "yu dime la hora") (py "yu dime la hora")).
  - by vm_compute.
  - reflexivity.
  - by vm_compute.
  - apply not_exact_match. by vm_compute.
  - by vm_compute.
Defined.

(** C8, as stated, fails: the override " 0" is none of the three values,
    and yet it switches the fuzzy pass off. *)
Lemma fuzzy_off_untrimmed_counterexample :
  ~ fuzzy_off_untrimmed (env_of None (Some " 0"))
  /\ heard (run (hears "yu dime la hora")
              (wait_for_wake_word (env_of None (Some " 0")) (settings_of "yui"))).1 = false
  /\ heard (run (hears "yu dime la hora")
              (wait_for_wake_word (env_of None None) (settings_of "yui"))).1 = true.
Proof.
  split_and!; [|by vm_compute..].
  intros [Hoff _].
  destruct Hoff as (v & Hv & Hin); [by vm_compute|].
  vm_compute in Hv. injection Hv as <-.
  unfold fuzzy_off_values in Hin. rewrite !elem_of_cons, elem_of_nil in Hin.
  destruct Hin as [H|[H|[H|[]]]]; by vm_compute in H.
Qed.

(** C8, amended. The fuzzy pass is skipped exactly when the override, with
    the whitespace around it removed, is "0", "false" or "False"; then a
    transcript without an exact match gives heard = false.  Any other
    value, or none, leaves the result to the fuzzy pass. *)
Theorem fuzzy_toggle_trimmed {V} (env : environ) (settings : Settings V)
  (stt : ListenArgs V -> option pystr) (original : pystr) :
  let candidates := _wake_candidates env settings in
  let words := PyStr.split (_normalize (Some original)) in
  let off := exists v, env !! YUI_WAKE_WORD_FUZZY = Some v /\ strip v ∈ fuzzy_off_values in
  candidates <> [] ->
  stt (listen_args settings) = Some original ->
  original <> [] ->
  ~ exact_match candidates (_normalize (Some original)) ->
  (fuzzy_enabled env = false <-> off)
  /\ (off -> run stt (wait_for_wake_word env settings)
            = ({| heard := false; transcript := Some original |}, [listen_args settings]))
  /\ (~ off -> run stt (wait_for_wake_word env settings)
              = ({| heard := fuzzy_words words candidates; transcript := Some original |},
                 [listen_args settings])).
Proof.
  cbv zeta. intros Hne Hstt Horig Hexact.
  rewrite wait_for_wake_word_run by done. cbv zeta. rewrite Hstt.
  destruct original as [|c original]; [done|]. cbn [truthy negb].
  destruct (existsb _ _) eqn:Hex; [by apply exact_match_spec in Hex|].
  split_and!.
  - apply fuzzy_enabled_spec.
  - intros Hoff%fuzzy_enabled_spec. by rewrite Hoff.
  - intros Hon. destruct (fuzzy_enabled env) eqn:Hf; [done|].
    by apply fuzzy_enabled_spec in Hf.
Qed.

Lemma fuzzy_toggle_trimmed_witness :
  let env := env_of None (Some "False ") in
  let candidates := _wake_candidates env (settings_of "yui") in
  let words := PyStr.split (_normalize (Some (py "yu dime la hora"))) in
  let off := exists v, env !! YUI_WAKE_WORD_FUZZY = Some v /\ strip v ∈ fuzzy_off_values in
  (fuzzy_enabled env = false <-> off)
  /\ (off -> run (hears "yu dime la hora") (wait_for_wake_word env (settings_of "yui"))
            = ({| heard := false; transcript := Some (py "yu dime la hora") |},
               [listen_args (settings_of "yui")]))
  /\ (~ off -> run (hears "yu dime la hora") (wait_for_wake_word env (settings_of "yui"))
              = ({| heard := fuzzy_words words candidates;
                    transcript := Some (py "yu dime la hora") |},
                 [listen_args (settings_of "yui")])).
Proof.
  apply (fuzzy_toggle_trimmed (env_of None (Some "False ")) (settings_of "yui")
           (hears "yu dime la hora") (py "yu dime la hora")).
  - by vm_compute.
  - reflexivity.
  - by vm_compute.
  - apply not_exact_match. by vm_compute.
Defined.

(** C9. With a candidate and a non-empty transcript, the wake word is
    heard, and the transcript is returned as it was heard, whenever a
    candidate is a token of the normalized transcript or occurs in it. *)
Theorem exact_pass_hears {V} (env : environ) (settings : Settings V)
  (stt : ListenArgs V -> option pystr) (original : pystr) :
  _wake_candidates env settings <> [] ->
  stt (listen_args settings) = Some original ->
  original <> [] ->
  exact_match (_wake_candidates env settings) (_normalize (Some original)) ->
  run stt (wait_for_wake_word env settings)
  = ({| heard := true; transcript := Some original |}, [listen_args settings]).
Proof.
  intros Hne Hstt Horig Hexact%exact_match_spec.
  rewrite wait_for_wake_word_run by done. cbv zeta. rewrite Hstt.
  destruct original as [|c original]; [done|]. cbn [truthy negb].
  by rewrite Hexact.
Qed.

Lemma exact_pass_hears_witness :
  run (hears "Oye YUI  apaga la luz") (wait_for_wake_word (env_of None None) (settings_of "yui"))
  = ({| heard := true; transcript := Some (py "Oye YUI  apaga la luz") |},
     [listen_args (settings_of "yui")]).
Proof.
  apply (exact_pass_hears (env_of None None) (settings_of "yui")
           (hears "Oye YUI  apaga la luz") (py "Oye YUI  apaga la luz")).
  - by vm_compute.
  - reflexivity.
  - by vm_compute.
  - exists (py "yui"). split; [by vm_compute; left|].
    right. exists (py "oye "), (py " apaga la luz"). by vm_compute.
Defined.

(** C10. The text returned by [strip_wake_word] is in normal form: it has
    no whitespace at either end, is lowercase, has single spaces between
    its words, and [_normalize] leaves it as it is. *)
Theorem strip_wake_word_is_normalized {V} (env : environ) (text : option pystr)
  (settings : Settings V) :
  normalized (strip_wake_word env text settings)
  /\ _normalize (Some (strip_wake_word env text settings))
     = strip_wake_word env text settings.
Proof.
  pose proof (strip_wake_word_normalized env text settings) as Hn.
  split; [done|]. by apply normalized_fixed.
Qed.

(** ** Further properties of the module *)

(** *** The fuzzy matcher *)

(** X1. The fuzzy matcher is symmetric in its two arguments. *)
Theorem edit_distance_le1_symmetric (a b : option pystr) :
  _edit_distance_le1 a b = _edit_distance_le1 b a.
Proof.
  apply eq_true_iff_eq.
  by rewrite !edit_distance_le1_levenshtein, levenshtein_sym.
Qed.

(** X2. The fuzzy matcher accepts two strings exactly when they are equal
    or differ by one inserted, deleted or substituted character. *)
Theorem edit_distance_le1_one_edit (a b : pystr) :
  _edit_distance_le1 (Some a) (Some b) = true <-> a = b \/ one_edit a b.
Proof.
  by rewrite edit_distance_le1_levenshtein, !or_else_some, levenshtein_le1_one_edit.
Qed.

(** X3. The [while] loop of the matcher, run on its indices, ends for any
    two strings: one turn more than the length of [b] is enough, and the
    result is that of the loop over the rests of the strings. *)
Theorem insertion_loop_terminates (a b : pystr) (fuel : nat) :
  length b < fuel ->
  insertion_indexed fuel a b 0 0 0 = Some (insertion_loop a b 0).
Proof. intros Hfuel. rewrite insertion_indexed_spec by lia. done. Qed.

Lemma insertion_loop_terminates_witness :
  insertion_indexed 5 (py "yui") (py "yuri") 0 0 0
  = Some (insertion_loop (py "yui") (py "yuri") 0).
Proof. apply (insertion_loop_terminates (py "yui") (py "yuri") 5). simpl. lia. Defined.


(** *** Normalization *)

Section NormalizeFacts.
Implicit Types (s cur : pystr).

Lemma lstrip_nil_iff s : lstrip s = [] <-> forallb isspace s = true.
Proof.
  induction s as [|c s IH]; [done|]. simpl.
  destruct (isspace c); [by rewrite IH|]. split; [done|]. by intros [? ?]%andb_prop.
Qed.

Lemma rstrip_nil_iff s : rstrip s = [] <-> forallb isspace s = true.
Proof.
  induction s as [|c s IH]; [done|]. rewrite rstrip_cons. simpl forallb.
  destruct (rstrip s) as [|d r] eqn:Hr.
  - destruct (isspace c); simpl; [by rewrite <- IH|]. split; [done|]. by intros ?.
  - split; [done|]. intros [_ Hs]%andb_prop. by apply IH in Hs.
Qed.

Lemma lstrip_all_spaces s : forallb isspace (lstrip s) = true -> lstrip s = [].
Proof.
  pose proof (lstrip_no_lead s) as Hl. destruct (lstrip s) as [|c r]; [done|].
  simpl in *. by rewrite Hl.
Qed.

Lemma strip_nil_iff s : strip s = [] <-> forallb isspace s = true.
Proof.
  unfold strip. rewrite rstrip_nil_iff. split.
  - intros H%lstrip_all_spaces. by apply lstrip_nil_iff.
  - intros H%lstrip_nil_iff. by rewrite H.
Qed.

Lemma collapse_false_nil s : collapse false s = [] <-> s = [].
Proof. destruct s as [|c s]; [done|]. simpl. by destruct (isspace c). Qed.

Lemma _normalize_nil_iff text :
  _normalize text = [] <-> forallb isspace (or_else text []) = true.
Proof.
  rewrite _normalize_eq, collapse_false_nil, <- strip_nil_iff.
  unfold lower. by destruct (strip _).
Qed.

Lemma lstrip_lower s : lstrip (lower s) = lower (lstrip s).
Proof.
  induction s as [|c s IH]; [done|]. simpl.
  rewrite isspace_lower_char. by destruct (isspace c).
Qed.

Lemma rstrip_lower s : rstrip (lower s) = lower (rstrip s).
Proof.
  induction s as [|c s IH]; [done|].
  change (lower (c :: s)) with (lower_char c :: lower s).
  rewrite !rstrip_cons, IH, isspace_lower_char.
  destruct (rstrip s); [by destruct (isspace c)|done].
Qed.

Lemma strip_lower s : strip (lower s) = lower (strip s).
Proof. unfold strip. by rewrite lstrip_lower, rstrip_lower. Qed.

Lemma lower_lower s : lower (lower s) = lower s.
Proof. apply lower_id, lower_lowered. Qed.

(** Splitting at whitespace *)

Lemma split_from_spaces cur s :
  forallb isspace s = true ->
  PyStr.split_from cur s = match cur with [] => [] | _ => [cur] end.
Proof.
  revert cur. induction s as [|c s IH]; intros cur; [done|].
  simpl. intros [-> Hs]%andb_prop.
  rewrite (IH []) by done. by destruct cur.
Qed.

Lemma split_from_lstrip s : PyStr.split_from [] (lstrip s) = PyStr.split_from [] s.
Proof.
  induction s as [|c s IH]; [done|]. simpl lstrip.
  destruct (isspace c) eqn:Hc; [|done]. simpl. by rewrite Hc.
Qed.

Lemma split_from_cons cur c s :
  PyStr.split_from cur (c :: s) =
  if isspace c
  then match cur with
       | [] => PyStr.split_from [] s
       | _ :: _ => cur :: PyStr.split_from [] s
       end
  else PyStr.split_from (cur ++ [c]) s.
Proof. reflexivity. Qed.

Lemma split_from_rstrip cur s :
  PyStr.split_from cur (rstrip s) = PyStr.split_from cur s.
Proof.
  revert cur. induction s as [|c s IH]; intros cur; [done|]. rewrite rstrip_cons.
  destruct (rstrip s) as [|d r] eqn:Hr.
  - apply rstrip_nil_iff in Hr. simpl. rewrite !(split_from_spaces _ s) by done.
    destruct (isspace c) eqn:Hc; [by destruct cur|].
    simpl. rewrite Hc. by destruct cur.
  - by rewrite (split_from_cons cur c (d :: r)), (split_from_cons cur c s), !IH.
Qed.

Lemma split_strip s : PyStr.split (strip s) = PyStr.split s.
Proof. unfold PyStr.split, strip. by rewrite split_from_rstrip, split_from_lstrip. Qed.

Lemma split_from_lower cur s :
  PyStr.split_from (lower cur) (lower s) = lower <$> PyStr.split_from cur s.
Proof.
  revert cur. induction s as [|c s IH]; intros cur.
  - by destruct cur.
  - change (lower (c :: s)) with (lower_char c :: lower s). simpl.
    rewrite isspace_lower_char. destruct (isspace c).
    + destruct cur as [|d cur]; [apply (IH [])|]. simpl. f_equal. apply (IH []).
    + rewrite <- IH. unfold lower. by rewrite map_app.
Qed.

Lemma split_from_collapse b cur s :
  (b = true -> cur = []) ->
  PyStr.split_from cur (collapse b s) = PyStr.split_from cur s.
Proof.
  revert b cur. induction s as [|c s IH]; intros b cur Hb; [done|]. simpl.
  destruct (isspace c) eqn:Hc.
  - destruct b.
    + rewrite (Hb eq_refl). by apply IH.
    + simpl. rewrite (IH true []) by done. done.
  - simpl. rewrite Hc. by apply IH.
Qed.

Lemma split_normalize s :
  PyStr.split (_normalize (Some s)) = lower <$> PyStr.split s.
Proof.
  rewrite _normalize_eq, or_else_some. unfold PyStr.split.
  rewrite split_from_collapse by done.
  etrans; [apply (split_from_lower [] (strip s))|]. f_equal. apply split_strip.
Qed.

(** A text in normal form is its tokens joined by single spaces. *)
Lemma join_spaces_cons t ts :
  ts <> [] -> join_spaces (t :: ts) = t ++ " "%char :: join_spaces ts.
Proof. by destruct ts. Qed.

Lemma join_split_from cur s :
  (cur = [] -> no_lead s) -> single_spaced false s -> no_trail (cur ++ s) ->
  join_spaces (PyStr.split_from cur s) = cur ++ s.
Proof.
  revert cur. induction s as [|c s IH]; intros cur Hlead Hsp Htrail.
  - rewrite app_nil_r. by destruct cur.
  - apply single_spaced_cons in Hsp as [Hc Hsp]. simpl PyStr.split_from.
    destruct (isspace c) eqn:Hspace.
    + destruct (Hc eq_refl) as [-> _].
      destruct cur as [|d cur]; [by specialize (Hlead eq_refl)|].
      assert (s <> []) as Hs.
      { intros ->. unfold no_trail in Htrail. rewrite last_snoc in Htrail. congruence. }
      assert (no_lead s) as Hls by (destruct s as [|e s]; [done|]; simpl in *; by destruct (isspace e); [destruct Hsp as (_ & ? & _)|]).
      assert (join_spaces (PyStr.split_from [] s) = s) as Hj.
      { apply (IH []); [done|by eapply single_spaced_weaken|].
        simpl. unfold no_trail in *. rewrite last_app in Htrail.
        rewrite last_cons in Htrail. destruct (last s) eqn:Hl; [done|].
        by apply last_None in Hl. }
      rewrite join_spaces_cons; [by rewrite Hj|].
      intros Hnil. rewrite Hnil in Hj. by simpl in Hj.
    + rewrite IH.
      * by rewrite <- app_assoc.
      * intros Hnil. by destruct cur.
      * done.
      * by rewrite <- app_assoc.
Qed.

Lemma join_split_normalized s : normalized s -> join_spaces (PyStr.split s) = s.
Proof.
  intros (Hl & Ht & Hs & _). by apply (join_split_from [] s).
Qed.

End NormalizeFacts.

(** X4. The result of [_normalize] is in normal form: no whitespace at
    either end, lowercase, and every whitespace character is a single
    space between two other characters. *)
Theorem normalize_in_normal_form (text : option pystr) :
  normalized (_normalize text).
Proof. apply _normalize_normalized. Qed.

(** X5. [_normalize] returns the empty string exactly for an absent text
    and for a text made of whitespace only. *)
Theorem normalize_empty_iff_blank (text : option pystr) :
  _normalize text = [] <->
  text = None \/ exists s, text = Some s /\ forallb isspace s = true.
Proof.
  rewrite _normalize_nil_iff. destruct text as [s|].
  - rewrite or_else_some. split; [by eauto|].
    intros [?|(s' & [= <-] & Hs)]; done.
  - split; [by left|done].
Qed.

(** X6. [_normalize] does not see the case of the letters nor the
    whitespace around the text. *)
Theorem normalize_ignores_case_and_margins (s : pystr) :
  _normalize (Some (lower s)) = _normalize (Some s)
  /\ _normalize (Some (strip s)) = _normalize (Some s).
Proof.
  rewrite !_normalize_eq, !or_else_some. split.
  - by rewrite strip_lower, lower_lower.
  - by rewrite (strip_id (strip s)) by (apply strip_no_lead || apply strip_no_trail).
Qed.

(** X7. [_normalize] is [" ".join(s.lower().split())]: the tokens of the
    normalized text are the tokens of the text in lowercase, and the
    normalized text is these tokens joined by single spaces. *)
Theorem normalize_joins_tokens (s : pystr) :
  PyStr.split (_normalize (Some s)) = PyStr.split (lower s)
  /\ _normalize (Some s) = join_spaces (PyStr.split (lower s)).
Proof.
  assert (PyStr.split (_normalize (Some s)) = PyStr.split (lower s)) as Hsplit.
  { rewrite split_normalize. symmetry. apply (split_from_lower [] s). }
  split; [done|]. rewrite <- Hsplit.
  symmetry. apply join_split_normalized, _normalize_normalized.
Qed.

(** *** The candidate set *)

(** X8. A string is a candidate exactly when it is not empty and is the
    normalized wake word or the normalized form of a piece of the alias
    override: no alias is lost, nothing else is added. *)
Theorem wake_candidates_elem_of {V} (env : environ) (settings : Settings V) (w : pystr) :
  w ∈ _wake_candidates env settings <->
  w <> [] /\ (w = _normalize (wake_word settings)
              \/ exists part, part ∈ alias_parts env /\ w = _normalize (Some part)).
Proof.
  rewrite _wake_candidates_spec, dedup_first_elem_of, list_elem_of_filter.
  rewrite elem_of_cons, list_elem_of_fmap.
  split; intros [Hw [Hb|(part & H1 & H2)]]; split; eauto.
Qed.

Lemma wake_candidates_nil_iff {V} (env : environ) (settings : Settings V) :
  _wake_candidates env settings = [] <->
  _normalize (wake_word settings) = []
  /\ Forall (fun part => _normalize (Some part) = []) (alias_parts env).
Proof.
  rewrite _wake_candidates_spec. split.
  - intros Hc.
    assert (forall w, w ∈ _normalize (wake_word settings)
                          :: ((fun part => _normalize (Some part)) <$> alias_parts env)
                      -> w = []) as Hall.
    { intros w Hw. destruct (decide (w = [])) as [|Hne]; [done|].
      assert (w ∈ dedup_first (filter (fun w => w <> [])
                (_normalize (wake_word settings)
                 :: ((fun part => _normalize (Some part)) <$> alias_parts env)))) as Hin
        by (by rewrite dedup_first_elem_of, list_elem_of_filter).
      rewrite Hc in Hin. by apply elem_of_nil in Hin. }
    split; [apply Hall; left|].
    apply Forall_forall. intros part Hpart. apply Hall. right.
    apply list_elem_of_fmap. eauto.
  - intros [Hbase Hparts]. rewrite Hbase, filter_cons, decide_False by tauto.
    replace (filter _ _) with (@nil pystr); [done|]. symmetry.
    induction Hparts as [|part parts Hpart _ IH]; [done|].
    rewrite fmap_cons, filter_cons, Hpart, decide_False by tauto. exact IH.
Qed.

(** X9. The candidate set is empty exactly when the wake word and every
    piece of the alias override normalize to the empty string. *)
Theorem wake_candidates_empty_iff {V} (env : environ) (settings : Settings V) :
  _wake_candidates env settings = [] <->
  _normalize (wake_word settings) = []
  /\ Forall (fun part => _normalize (Some part) = []) (alias_parts env).
Proof. apply wake_candidates_nil_iff. Qed.

(** X10. Every candidate is in normal form: trimmed, lowercase, with
    single spaces. *)
Theorem wake_candidates_in_normal_form {V} (env : environ) (settings : Settings V)
  (w : pystr) :
  w ∈ _wake_candidates env settings -> normalized w.
Proof. apply _wake_candidates_normalized. Qed.

Lemma wake_candidates_in_normal_form_witness :
  py "hey yui" ∈ _wake_candidates (env_of (Some "Yuri ; HEY   yui") None) (settings_of "yui")
  /\ normalized (py "hey yui").
Proof.
  assert (py "hey yui"
          ∈ _wake_candidates (env_of (Some "Yuri ; HEY   yui") None) (settings_of "yui")) as Hin.
  { vm_compute. do 2 right. left. }
  split; [exact Hin|].
  exact (wake_candidates_in_normal_form _ _ _ Hin).
Defined.

Lemma alias_parts_blank (env : environ) :
  (forall v, env !! YUI_WAKE_WORD_ALIASES = Some v -> forallb isspace v = true) ->
  alias_parts env = [].
Proof.
  intros Hblank. unfold alias_parts.
  assert (env_aliases env = []) as ->; [|done].
  unfold env_aliases, getenv. destruct (env !! YUI_WAKE_WORD_ALIASES) as [v|] eqn:Hv.
  - specialize (Hblank v eq_refl). rewrite or_else_some. by apply strip_nil_iff.
  - done.
Qed.

(** X11. When the alias override is unset, empty or made of whitespace,
    the candidate set is the normalized wake word alone, or empty when the
    wake word normalizes to the empty string. *)
Theorem wake_candidates_without_aliases {V} (env : environ) (settings : Settings V) :
  (forall v, env !! YUI_WAKE_WORD_ALIASES = Some v -> forallb isspace v = true) ->
  _wake_candidates env settings =
  match _normalize (wake_word settings) with
  | [] => []
  | base => [base]
  end.
Proof.
  intros Hblank. rewrite _wake_candidates_spec, (alias_parts_blank env Hblank).
  rewrite fmap_nil, filter_cons, filter_nil.
  destruct (_normalize (wake_word settings)) as [|c base].
  - by rewrite decide_False by tauto.
  - by rewrite decide_True by done.
Qed.

Lemma wake_candidates_without_aliases_witness :
  _wake_candidates (env_of (Some "   ") None) (settings_of " YUI ") = [py "yui"].
Proof.
  apply (wake_candidates_without_aliases (env_of (Some "   ") None) (settings_of " YUI ")).
  intros v Hv. vm_compute in Hv. injection Hv as <-. reflexivity.
Defined.

Section Separators.
Implicit Types (s cur : pystr) (prev : option ascii).

Lemma match_len_separator prev c s :
  Re.match_len alias_separator prev (c :: s) =
  if is_separator c then Some (S (length s - length (lstrip s))) else None.
Proof.
  unfold Re.match_len, alias_separator, is_separator. cbn [Re.match_re].
  destruct (Re.one_of (py ",|;") c); [|done].
  rewrite (match_star_greedy isspace (Some c) s (fun rest => length (c :: s) - length rest)).
  rewrite skip_class_lstrip. pose proof (skip_class_length isspace s) as Hle.
  rewrite skip_class_lstrip in Hle. f_equal. simpl length. lia.
Qed.

Lemma split_from_plain s prev skip cur :
  no_separator cur -> Forall no_separator (Re.split_from alias_separator prev skip cur s).
Proof.
  revert prev skip cur. induction s as [|c s IH]; intros prev skip cur Hcur.
  - by repeat constructor.
  - cbn [Re.split_from]. destruct skip as [|n]; [|by apply IH].
    rewrite match_len_separator. destruct (is_separator c) eqn:Hc.
    + constructor; [done|]. apply IH. constructor.
    + apply IH. apply Forall_app. split; [done|]. by repeat constructor.
Qed.

Lemma is_separator_lower_char c : is_separator (lower_char c) = is_separator c.
Proof. by destruct c as [[] [] [] [] [] [] [] []]; vm_compute. Qed.

Lemma lstrip_sublist s : lstrip s `sublist_of` s.
Proof.
  induction s as [|c s IH]; [done|]. simpl.
  destruct (isspace c); [by apply sublist_cons|done].
Qed.

Lemma rstrip_sublist s : rstrip s `sublist_of` s.
Proof.
  induction s as [|c s IH]; [done|]. rewrite rstrip_cons.
  destruct (rstrip s) as [|d r].
  - destruct (isspace c); [apply sublist_nil_l|].
    apply sublist_skip, sublist_nil_l.
  - by apply sublist_skip.
Qed.

Lemma strip_sublist s : strip s `sublist_of` s.
Proof. unfold strip. etrans; [apply rstrip_sublist|apply lstrip_sublist]. Qed.

Lemma Forall_sublist_of {A} (P : A -> Prop) (l1 l2 : list A) :
  l1 `sublist_of` l2 -> Forall P l2 -> Forall P l1.
Proof.
  induction 1 as [|x l1 l2 _ IH|x l1 l2 _ IH]; [done| |].
  - intros [Hx Hl]%Forall_cons. constructor; auto.
  - intros [_ Hl]%Forall_cons. auto.
Qed.

Lemma collapse_plain b s : no_separator s -> no_separator (collapse b s).
Proof.
  unfold no_separator. intros H. revert b.
  induction H as [|c s Hc Hs IH]; intros b; [done|]. simpl.
  destruct (isspace c); [destruct b|]; try constructor; auto.
Qed.

Lemma _normalize_plain s : no_separator s -> no_separator (_normalize (Some s)).
Proof.
  intros Hs. rewrite _normalize_eq, or_else_some. apply collapse_plain.
  unfold no_separator, lower. apply Forall_fmap.
  eapply Forall_impl; [exact (Forall_sublist_of _ _ _ (strip_sublist s) Hs)|].
  intros c Hc. simpl. by rewrite is_separator_lower_char.
Qed.

Lemma alias_parts_plain (env : environ) part :
  part ∈ alias_parts env -> no_separator part.
Proof.
  unfold alias_parts. destruct (env_aliases env) as [|c s] eqn:He.
  - by intros ?%elem_of_nil.
  - intros Hin. pose proof (split_from_plain (c :: s) None 0 [] (Forall_nil_2 _)) as Hall.
    rewrite Forall_forall in Hall. by apply Hall.
Qed.

Lemma alias_candidates_plain {V} (env : environ) (settings : Settings V) w :
  w ∈ _wake_candidates env settings ->
  w <> _normalize (wake_word settings) ->
  Forall (fun c => is_separator c = false) w.
Proof.
  rewrite _wake_candidates_spec, dedup_first_elem_of, list_elem_of_filter.
  rewrite elem_of_cons, list_elem_of_fmap.
  intros [_ [->|(part & -> & Hpart)]] Hne; [done|].
  apply _normalize_plain. by apply (alias_parts_plain env).
Qed.

End Separators.

(** X12. A candidate that comes from the alias override holds no comma,
    pipe or semicolon: only the wake word itself can hold one. *)
Theorem alias_candidates_without_separator {V} (env : environ) (settings : Settings V)
  (w : pystr) :
  w ∈ _wake_candidates env settings ->
  w <> _normalize (wake_word settings) ->
  Forall (fun c => is_separator c = false) w.
Proof. apply alias_candidates_plain. Qed.

Lemma alias_candidates_without_separator_witness :
  Forall (fun c => is_separator c = false) (py "hey yui").
Proof.
  apply (alias_candidates_without_separator
           (env_of (Some "Yuri ; HEY   yui") None) (settings_of "y,ui") (py "hey yui")).
  - vm_compute. do 2 right. left.
  - by vm_compute.
Defined.

(** *** Detection *)

Section DetectionFacts.
Context {V : Type}.
Implicit Types (env : environ) (settings : Settings V) (s w cur : pystr).
Implicit Types (stt : ListenArgs V -> option pystr).

Lemma substring_cons c w s : substring w s -> substring w (c :: s).
Proof. intros (l & r & ->). by exists (c :: l), r. Qed.

Lemma substring_app_l k w s : substring w s -> substring w (k ++ s).
Proof. intros (l & r & ->). exists (k ++ l), r. by rewrite <- app_assoc. Qed.

(** A token of a text occurs in the text. *)
Lemma split_from_substring cur s w :
  w ∈ PyStr.split_from cur s -> substring w (cur ++ s).
Proof.
  revert cur. induction s as [|c s IH]; intros cur.
  - simpl. destruct cur as [|d cur]; [by intros ?%elem_of_nil|].
    intros ->%list_elem_of_singleton. by exists [], [].
  - rewrite split_from_cons. destruct (isspace c).
    + destruct cur as [|d cur].
      * intros Hw%IH. by apply substring_cons.
      * intros [->|Hw%IH]%elem_of_cons; [by exists [], (c :: s)|].
        by apply substring_app_l, substring_cons.
    + intros Hw%IH. by rewrite <- app_assoc in Hw.
Qed.

Lemma token_substring s w : w ∈ PyStr.split s -> substring w s.
Proof. apply (split_from_substring [] s). Qed.

Lemma exact_test_contains (candidates : list pystr) norm :
  existsb (fun w => bool_decide (w ∈ PyStr.split norm) || contains norm w) candidates
  = existsb (contains norm) candidates.
Proof.
  induction candidates as [|w ws IH]; [done|]. simpl. rewrite IH. f_equal.
  destruct (contains norm w) eqn:Hc; [by rewrite orb_true_r|].
  rewrite orb_false_r. apply bool_decide_eq_false. intros Hw%token_substring.
  apply contains_spec in Hw. congruence.
Qed.

Lemma exact_match_substring (candidates : list pystr) norm :
  exact_match candidates norm <-> exists w, w ∈ candidates /\ substring w norm.
Proof.
  unfold exact_match. split.
  - intros (w & Hin & [Hw|Hw]); exists w; split; auto. by apply token_substring.
  - intros (w & Hin & Hw). exists w. auto.
Qed.

(** A match of the fuzzy pass needs a candidate of at most 7 characters. *)
Lemma fuzzy_words_short (words candidates : list pystr) :
  fuzzy_words words candidates = true ->
  exists cand, cand ∈ candidates /\ length cand <= 7.
Proof.
  intros (word & cand & _ & Hc & Hlen & Hd)%fuzzy_words_spec.
  exists cand. split; [done|].
  apply edit_distance_le1_levenshtein in Hd. rewrite !or_else_some in Hd.
  pose proof (levenshtein_length word cand). lia.
Qed.

Lemma blank_not_matched (candidates : list pystr) :
  [] ∉ candidates ->
  existsb (fun w => bool_decide (w ∈ PyStr.split []) || contains [] w) candidates = false.
Proof.
  induction candidates as [|w ws IH]; [done|].
  intros [Hw Hws]%not_elem_of_cons. cbn [existsb]. rewrite IH by done.
  rewrite orb_false_r. destruct w as [|c w]; [done|].
  apply orb_false_iff. split; [|done].
  apply bool_decide_eq_false. change (PyStr.split []) with (@nil pystr).
  apply not_elem_of_nil.
Qed.

Lemma run_calls env settings stt :
  (run stt (wait_for_wake_word env settings)).2
  = match _wake_candidates env settings with
    | [] => []
    | _ :: _ => [listen_args settings]
    end.
Proof.
  destruct (_wake_candidates env settings) as [|w ws] eqn:Hc.
  - by rewrite (wait_for_wake_word_disabled _ _ Hc).
  - rewrite wait_for_wake_word_run; [done|]. by rewrite Hc.
Qed.

End DetectionFacts.

(** X13. [wait_for_wake_word] calls [listen] at most once: never when the
    candidate set is empty, once otherwise, with the six settings handed
    over as they are. *)
Theorem listen_called_at_most_once {V} (env : environ) (settings : Settings V)
  (stt : ListenArgs V -> option pystr) :
  (run stt (wait_for_wake_word env settings)).2
  = match _wake_candidates env settings with
    | [] => []
    | _ :: _ =>
        [ {| language := stt_language settings;
             timeout_s := wake_listen_timeout_s settings;
             phrase_time_limit_s := wake_phrase_time_limit_s settings;
             backend := stt_backend settings;
             microphone_index := stt_microphone_index settings;
             sounddevice_index := sounddevice_input_index settings |} ]
    end.
Proof. apply run_calls. Qed.

(** X14. The token test of the exact pass adds nothing to the substring
    test: a token of the normalized transcript occurs in it, so the pass
    succeeds exactly when a candidate occurs in the normalized transcript. *)
Theorem token_test_is_redundant (candidates : list pystr) (norm : pystr) :
  existsb (fun w => bool_decide (w ∈ PyStr.split norm) || contains norm w) candidates
  = existsb (contains norm) candidates.
Proof. apply exact_test_contains. Qed.

(** X15. With a candidate and a non-empty transcript, the transcript is
    returned as it was heard, and the wake word is heard exactly when a
    candidate occurs in the normalized transcript or, the fuzzy pass being
    on, a token of 2 to 6 characters is accepted by the fuzzy matcher. *)
Theorem heard_iff_exact_or_fuzzy {V} (env : environ) (settings : Settings V)
  (stt : ListenArgs V -> option pystr) (original : pystr) :
  let candidates := _wake_candidates env settings in
  let norm := _normalize (Some original) in
  let result := (run stt (wait_for_wake_word env settings)).1 in
  candidates <> [] ->
  stt (listen_args settings) = Some original ->
  original <> [] ->
  transcript result = Some original
  /\ (heard result = true <->
      (exists w, w ∈ candidates /\ substring w norm)
      \/ (fuzzy_enabled env = true
          /\ exists word cand, word ∈ PyStr.split norm /\ cand ∈ candidates
               /\ 2 <= length word <= 6
               /\ _edit_distance_le1 (Some word) (Some cand) = true)).
Proof.
  cbv zeta. intros Hne Hstt Horig.
  rewrite wait_for_wake_word_run by done. cbv zeta. rewrite Hstt.
  destruct original as [|c original]; [done|]. cbn [truthy negb fst].
  rewrite <- exact_match_substring, <- exact_match_spec, <- fuzzy_words_spec.
  destruct (existsb _ _) eqn:Hex.
  - split; [done|]. cbn [heard]. split; [by left|done].
  - split; [done|]. cbn [heard]. rewrite andb_true_iff. split; [by right|].
    by intros [?|?].
Qed.

Lemma heard_iff_exact_or_fuzzy_witness :
  let candidates := _wake_candidates (env_of None None) (settings_of "yui") in
  let norm := _normalize (Some (py "Hola  Mundo")) in
  let result :=
    (run (hears "Hola  Mundo") (wait_for_wake_word (env_of None None) (settings_of "yui"))).1 in
  transcript result = Some (py "Hola  Mundo")
  /\ (heard result = true <->
      (exists w, w ∈ candidates /\ substring w norm)
      \/ (fuzzy_enabled (env_of None None) = true
          /\ exists word cand, word ∈ PyStr.split norm /\ cand ∈ candidates
               /\ 2 <= length word <= 6
               /\ _edit_distance_le1 (Some word) (Some cand) = true)).
Proof.
  apply (heard_iff_exact_or_fuzzy (env_of None None) (settings_of "yui")
           (hears "Hola  Mundo") (py "Hola  Mundo")).
  - by vm_compute.
  - reflexivity.
  - by vm_compute.
Defined.

(** X16. A transcript made of whitespace only is not the silence of C4:
    with a candidate, the wake word is not heard and the transcript is
    returned as it was heard. *)
Theorem blank_transcript_not_heard {V} (env : environ) (settings : Settings V)
  (stt : ListenArgs V -> option pystr) (original : pystr) :
  _wake_candidates env settings <> [] ->
  stt (listen_args settings) = Some original ->
  original <> [] ->
  forallb isspace original = true ->
  run stt (wait_for_wake_word env settings)
  = ({| heard := false; transcript := Some original |}, [listen_args settings]).
Proof.
  intros Hne Hstt Horig Hblank.
  rewrite wait_for_wake_word_run by done. cbv zeta. rewrite Hstt.
  assert (_normalize (Some original) = []) as ->
    by (apply _normalize_nil_iff; by rewrite or_else_some).
  destruct original as [|c original]; [done|]. cbn [truthy negb].
  rewrite blank_not_matched.
  - change (PyStr.split []) with (@nil pystr). cbn [fuzzy_words]. by rewrite andb_false_r.
  - intros Hin. by apply _wake_candidates_nonempty in Hin.
Qed.

Lemma blank_transcript_not_heard_witness :
  run (hears "   ") (wait_for_wake_word (env_of None None) (settings_of "yui"))
  = ({| heard := false; transcript := Some (py "   ") |}, [listen_args (settings_of "yui")]).
Proof.
  apply (blank_transcript_not_heard (env_of None None) (settings_of "yui")
           (hears "   ") (py "   ")).
  - by vm_compute.
  - reflexivity.
  - by vm_compute.
  - reflexivity.
Defined.

(** X17. The fuzzy pass cannot reach a candidate of more than 7
    characters: when every candidate is that long, the wake word is heard
    exactly when a candidate occurs in the normalized transcript. *)
Theorem long_candidates_need_exact_match {V} (env : environ) (settings : Settings V)
  (stt : ListenArgs V -> option pystr) (original : pystr) :
  let candidates := _wake_candidates env settings in
  let result := (run stt (wait_for_wake_word env settings)).1 in
  candidates <> [] ->
  stt (listen_args settings) = Some original ->
  original <> [] ->
  (forall cand, cand ∈ candidates -> 7 < length cand) ->
  heard result = true <->
  exists w, w ∈ candidates /\ substring w (_normalize (Some original)).
Proof.
  cbv zeta. intros Hne Hstt Horig Hlong.
  rewrite wait_for_wake_word_run by done. cbv zeta. rewrite Hstt.
  destruct original as [|c original]; [done|]. cbn [truthy negb fst].
  rewrite <- exact_match_substring, <- exact_match_spec.
  destruct (existsb _ _) eqn:Hex; [done|]. cbn [heard].
  destruct (fuzzy_words _ _) eqn:Hf; [|by rewrite andb_false_r].
  apply fuzzy_words_short in Hf as (cand & Hin & Hlen).
  specialize (Hlong cand Hin). lia.
Qed.

Lemma long_candidates_need_exact_match_witness :
  heard (run (hears "computador enciende")
           (wait_for_wake_word (env_of None None) (settings_of "computadora"))).1 = true <->
  exists w, w ∈ _wake_candidates (env_of None None) (settings_of "computadora")
            /\ substring w (_normalize (Some (py "computador enciende"))).
Proof.
  apply (long_candidates_need_exact_match (env_of None None) (settings_of "computadora")
           (hears "computador enciende") (py "computador enciende")).
  - by vm_compute.
  - reflexivity.
  - by vm_compute.
  - intros cand Hin. vm_compute in Hin.
    apply list_elem_of_singleton in Hin. subst cand. vm_compute. lia.
Defined.

(** *** Stripping *)

Section StrippingFacts.
Implicit Types (s w out : pystr) (prev : option ascii) (candidates : list pystr).

Lemma last_or_none s : last_or None s = last s.
Proof. unfold last_or. by destruct (last s). Qed.

Lemma existsb_whole_word candidates prev s :
  Re.word_boundary prev s && existsb (whole_word prev s) candidates = true <->
  exists w, occurs_at candidates prev s w.
Proof.
  rewrite andb_true_iff, existsb_exists. split.
  - intros (Hb & w & Hin%list_elem_of_In & Hw). exists w. by apply occurs_at_whole_word.
  - intros (w & (Hin & Hb & Hw)%occurs_at_whole_word). split; [done|].
    exists w. by rewrite <- list_elem_of_In.
Qed.

Lemma occurs_from_false candidates prev s :
  occurs_from candidates prev s = false ->
  forall l c r w, s = l ++ c :: r -> ~ occurs_at candidates (last_or prev l) (c :: r) w.
Proof.
  revert prev. induction s as [|d s IH]; intros prev Hno l c r w Hs Hocc.
  - by destruct l.
  - cbn [occurs_from] in Hno. apply orb_false_iff in Hno as [Hhere Hlater].
    destruct l as [|d' l]; simplify_eq/=.
    + assert (Re.word_boundary prev (c :: r) && existsb (whole_word prev (c :: r)) candidates
              = true) as Ht by (apply existsb_whole_word; eauto).
      congruence.
    + rewrite last_or_cons in Hocc. by eapply IH.
Qed.

Lemma occurs_from_true candidates prev s :
  occurs_from candidates prev s = true ->
  exists l c r w, s = l ++ c :: r /\ occurs_at candidates (last_or prev l) (c :: r) w.
Proof.
  revert prev. induction s as [|d s IH]; intros prev; [done|].
  cbn [occurs_from]. intros [Hhere|Hlater]%orb_true_iff.
  - apply existsb_whole_word in Hhere as [w Hw]. by exists [], d, s, w.
  - apply IH in Hlater as (l & c & r & w & -> & Hw).
    exists (d :: l), c, r, w. by rewrite last_or_cons.
Qed.

(** Without an occurrence nothing is removed. *)
Lemma removes_unchanged candidates prev s out :
  [] ∉ candidates ->
  (forall l c r w, s = l ++ c :: r -> ~ occurs_at candidates (last_or prev l) (c :: r) w) ->
  removes candidates prev s out -> out = s.
Proof.
  intros Hnil Hno H.
  induction H as [|prev c s out _ _ IH|prev w p sp rest out [Hocc _] _ _ _]; [done| |].
  - f_equal. apply IH. intros l c' r w Hs.
    rewrite <- (last_or_cons prev c l). apply Hno. by rewrite Hs.
  - destruct w as [|c w]; [by destruct Hocc as [Hin _]|].
    exfalso. by apply (Hno [] c (w ++ p ++ sp ++ rest) (c :: w)).
Qed.

(** What is left was in the text, in the same order. *)
Lemma removes_sublist candidates prev s out :
  removes candidates prev s out -> out `sublist_of` s.
Proof.
  induction 1 as [|prev c s out _ _ IH|prev w p sp rest out _ _ _ IH]; [done| |].
  - by apply sublist_skip.
  - rewrite !app_assoc. by apply sublist_inserts_l.
Qed.

Lemma occurs_at_substring candidates prev l c r w :
  occurs_at candidates prev (c :: r) w -> substring w (l ++ c :: r).
Proof. intros (_ & [k Hk] & _). exists l, k. by rewrite Hk. Qed.

End StrippingFacts.

(** X18. When no candidate occurs as a whole word at any position of the
    normalized text, [strip_wake_word] returns the normalized text. *)
Theorem strip_unchanged_without_occurrence {V} (env : environ) (text : option pystr)
  (settings : Settings V) :
  (forall l c r w, _normalize text = l ++ c :: r ->
     ~ occurs_at (_wake_candidates env settings) (last l) (c :: r) w) ->
  strip_wake_word env text settings = _normalize text.
Proof.
  intros Hno.
  destruct (decide (_wake_candidates env settings = [])) as [Hc|Hc].
  - unfold strip_wake_word. by rewrite Hc.
  - destruct (strip_wake_word_removes env text settings Hc) as (out & Hout & ->).
    assert (out = _normalize text) as ->.
    { eapply removes_unchanged; [|
        |exact Hout].
      - intros Hin. by apply _wake_candidates_nonempty in Hin.
      - intros l c r w Hs. rewrite last_or_none. by apply Hno. }
    destruct (_normalize_normalized text) as (Hl & Ht & _). by apply strip_id.
Qed.

Lemma strip_unchanged_without_occurrence_witness :
  strip_wake_word (env_of None None) (Some (py "Yuiop  dime")) (settings_of "yui")
  = _normalize (Some (py "Yuiop  dime")).
Proof.
  apply (strip_unchanged_without_occurrence (env_of None None) (Some (py "Yuiop  dime"))
           (settings_of "yui")).
  intros l c r w Hs. rewrite <- last_or_none.
  apply (occurs_from_false _ None (_normalize (Some (py "Yuiop  dime")))); [|exact Hs].
  by vm_compute.
Defined.

(** X19. [strip_wake_word] only removes characters of the normalized text:
    its result is a subsequence of the normalized text. *)
Theorem strip_only_removes {V} (env : environ) (text : option pystr)
  (settings : Settings V) :
  strip_wake_word env text settings `sublist_of` _normalize text.
Proof.
  destruct (decide (_wake_candidates env settings = [])) as [Hc|Hc].
  - unfold strip_wake_word. by rewrite Hc.
  - destruct (strip_wake_word_removes env text settings Hc) as (out & Hout & ->).
    etrans; [apply strip_sublist|]. by eapply removes_sublist.
Qed.

(** X20. For an absent text and for a text made of whitespace only,
    [strip_wake_word] returns the empty string, whatever the candidates. *)
Theorem strip_blank_text {V} (env : environ) (text : option pystr)
  (settings : Settings V) :
  text = None \/ (exists s, text = Some s /\ forallb isspace s = true) ->
  strip_wake_word env text settings = [].
Proof.
  intros Hblank.
  assert (_normalize text = []) as Hn.
  { apply _normalize_nil_iff. destruct Hblank as [->|(s & -> & Hs)]; [done|].
    by rewrite or_else_some. }
  unfold strip_wake_word. rewrite Hn.
  by destruct (_wake_candidates env settings).
Qed.

Lemma strip_blank_text_witness :
  strip_wake_word (env_of (Some "yuri") None) (Some (py "  ")) (settings_of "yui") = [].
Proof.
  apply (strip_blank_text (env_of (Some "yuri") None) (Some (py "  ")) (settings_of "yui")).
  right. exists (py "  "). split; reflexivity.
Defined.

(** X21. A text that normalizes to a candidate which starts and ends with
    a word character is stripped to the empty string. *)
Theorem strip_candidate_alone {V} (env : environ) (text : option pystr)
  (settings : Settings V) :
  _normalize text ∈ _wake_candidates env settings ->
  Re.isword_opt (head (_normalize text)) = true ->
  Re.isword_opt (last (_normalize text)) = true ->
  strip_wake_word env text settings = [].
Proof.
  intros Hin Hfirst Hlast.
  assert (_wake_candidates env settings <> []) as Hne
    by (intros Hc; rewrite Hc in Hin; by apply elem_of_nil in Hin).
  destruct (strip_wake_word_removes env text settings Hne) as (out & Hout & ->).
  assert (out = []) as ->; [|done].
  eapply removes_deterministic; [|exact Hout|].
  { intros Hnil. by apply _wake_candidates_nonempty in Hnil. }
  set (w := _normalize text) in *.
  pose proof (removes_occurrence (_wake_candidates env settings) None w [] [] [] []) as H.
  rewrite !app_nil_r in H. apply H.
  - split.
    + split_and!; [done|done| |].
      * unfold Re.word_boundary. cbn [Re.isword_opt]. by rewrite Hfirst.
      * rewrite drop_all, last_or_none. unfold Re.word_boundary.
        rewrite Hlast. done.
    + intros w' (_ & [k Hk] & _). rewrite Hk, length_app. lia.
  - by split_and!.
  - constructor.
Qed.

Lemma strip_candidate_alone_witness :
  strip_wake_word (env_of (Some "hey yui") None) (Some (py " Hey   YUI ")) (settings_of "yui")
  = [].
Proof.
  apply (strip_candidate_alone (env_of (Some "hey yui") None) (Some (py " Hey   YUI "))
           (settings_of "yui")).
  - vm_compute. right. left.
  - reflexivity.
  - reflexivity.
Defined.

(** X22. The two functions agree: whenever [strip_wake_word] removes
    something from a transcript, [wait_for_wake_word] hears the wake word
    in that transcript. *)
Theorem stripped_transcript_is_heard {V} (env : environ) (settings : Settings V)
  (stt : ListenArgs V -> option pystr) (original : pystr) :
  stt (listen_args settings) = Some original ->
  strip_wake_word env (Some original) settings <> _normalize (Some original) ->
  run stt (wait_for_wake_word env settings)
  = ({| heard := true; transcript := Some original |}, [listen_args settings]).
Proof.
  intros Hstt Hdiff.
  assert (_wake_candidates env settings <> []) as Hne.
  { intros Hc. apply Hdiff. unfold strip_wake_word. by rewrite Hc. }
  destruct (occurs_from (_wake_candidates env settings) None (_normalize (Some original)))
    eqn:Hocc.
  - apply occurs_from_true in Hocc as (l & c & r & w & Hs & Hw).
    assert (original <> []) as Horig by (intros ->; by destruct l).
    rewrite wait_for_wake_word_run by done. cbv zeta. rewrite Hstt.
    destruct original as [|d original]; [done|]. cbn [truthy negb].
    replace (existsb _ _) with true; [done|]. symmetry.
    apply exact_match_spec. exists w. split; [by destruct Hw|].
    right. rewrite Hs. by eapply occurs_at_substring.
  - exfalso. apply Hdiff.
    destruct (strip_wake_word_removes env (Some original) settings Hne) as (out & Hout & ->).
    assert (out = _normalize (Some original)) as ->.
    { eapply removes_unchanged; [| |exact Hout].
      - intros Hin. by apply _wake_candidates_nonempty in Hin.
      - by apply occurs_from_false. }
    destruct (_normalize_normalized (Some original)) as (Hl & Ht & _). by apply strip_id.
Qed.

Lemma stripped_transcript_is_heard_witness :
  run (hears "Oye YUI, apaga la luz") (wait_for_wake_word (env_of None None) (settings_of "yui"))
  = ({| heard := true; transcript := Some (py "Oye YUI, apaga la luz") |},
     [listen_args (settings_of "yui")]).
Proof.
  apply (stripped_transcript_is_heard (env_of None None) (settings_of "yui")
           (hears "Oye YUI, apaga la luz") (py "Oye YUI, apaga la luz")).
  - reflexivity.
  - by vm_compute.
Defined.

(** *** The order of the candidates *)

Section CandidateOrder.
Implicit Types (s w out : pystr) (prev : option ascii) (cs ds : list pystr).

Lemma occurs_at_same cs ds prev s w :
  (forall w, w ∈ cs <-> w ∈ ds) ->
  occurs_at cs prev s w -> occurs_at ds prev s w.
Proof. intros Hsame (Hin & Hrest). split; [by apply Hsame|done]. Qed.

Lemma removes_same cs ds prev s out :
  (forall w, w ∈ cs <-> w ∈ ds) ->
  removes cs prev s out -> removes ds prev s out.
Proof.
  intros Hsame.
  assert (forall w, w ∈ ds <-> w ∈ cs) as Hsame' by (intros w; by rewrite Hsame).
  induction 1 as [|prev c s out Hno _ IH|prev w p sp rest out [Hocc Hmax] Htrail _ IH].
  - constructor.
  - apply removes_keep; [|done]. intros w Hw. apply (Hno w). by eapply occurs_at_same.
  - apply removes_occurrence; [|done..]. split.
    + by eapply occurs_at_same.
    + intros w' Hw'. apply Hmax. by eapply occurs_at_same.
Qed.

Lemma existsb_same {A} (f : A -> bool) (l1 l2 : list A) :
  (forall x, x ∈ l1 <-> x ∈ l2) -> existsb f l1 = existsb f l2.
Proof.
  intros Hsame. apply eq_true_iff_eq. rewrite !existsb_exists.
  split; intros (x & Hin & Hf); exists x; split; try done;
    by apply list_elem_of_In, Hsame, list_elem_of_In.
Qed.

Lemma fuzzy_words_same (words : list pystr) cs ds :
  (forall w, w ∈ cs <-> w ∈ ds) -> fuzzy_words words cs = fuzzy_words words ds.
Proof.
  intros Hsame. apply eq_true_iff_eq. rewrite !fuzzy_words_spec.
  split; intros (word & cand & Hw & Hc & Hrest); exists word, cand;
    (split; [done|]); (split; [by apply Hsame|done]).
Qed.

Lemma same_nil cs ds : (forall w, w ∈ cs <-> w ∈ ds) -> cs = [] -> ds = [].
Proof.
  intros Hsame ->. destruct ds as [|w ds]; [done|].
  assert (w ∈ @nil pystr) as Hin by (apply Hsame; left). by apply elem_of_nil in Hin.
Qed.

End CandidateOrder.

(** X23. The result of [strip_wake_word] depends on the candidates as a
    set only: two configurations with the same candidates, in whatever
    order, strip a text the same way. *)
Theorem strip_ignores_candidate_order {V} (env1 env2 : environ) (text : option pystr)
  (settings1 settings2 : Settings V) :
  (forall w, w ∈ _wake_candidates env1 settings1 <-> w ∈ _wake_candidates env2 settings2) ->
  strip_wake_word env1 text settings1 = strip_wake_word env2 text settings2.
Proof.
  intros Hsame.
  destruct (decide (_wake_candidates env1 settings1 = [])) as [Hc1|Hc1].
  - pose proof (same_nil _ _ Hsame Hc1) as Hc2.
    unfold strip_wake_word. by rewrite Hc1, Hc2.
  - assert (_wake_candidates env2 settings2 <> []) as Hc2.
    { intros Hc2. apply Hc1. eapply same_nil; [|exact Hc2]. intros w. by rewrite Hsame. }
    destruct (strip_wake_word_removes env1 text settings1 Hc1) as (out1 & Hout1 & ->).
    destruct (strip_wake_word_removes env2 text settings2 Hc2) as (out2 & Hout2 & ->).
    f_equal. eapply removes_deterministic; [|eapply removes_same; [exact Hsame|exact Hout1]|exact Hout2].
    intros Hin. by apply _wake_candidates_nonempty in Hin.
Qed.

Lemma strip_ignores_candidate_order_witness :
  strip_wake_word (env_of (Some "yuri, hey yui") None) (Some (py "Hey YUI: dime la hora"))
    (settings_of "yui")
  = strip_wake_word (env_of (Some "hey yui | yui") None) (Some (py "Hey YUI: dime la hora"))
      (settings_of "yuri").
Proof.
  apply (strip_ignores_candidate_order (env_of (Some "yuri, hey yui") None)
           (env_of (Some "hey yui | yui") None) (Some (py "Hey YUI: dime la hora"))
           (settings_of "yui") (settings_of "yuri")).
  intros w.
  assert (_wake_candidates (env_of (Some "yuri, hey yui") None) (settings_of "yui")
          = [py "yui"; py "yuri"; py "hey yui"]) as -> by (by vm_compute).
  assert (_wake_candidates (env_of (Some "hey yui | yui") None) (settings_of "yuri")
          = [py "yuri"; py "hey yui"; py "yui"]) as -> by (by vm_compute).
  rewrite !elem_of_cons, !elem_of_nil. tauto.
Defined.

(** X24. What [wait_for_wake_word] returns depends on the candidates as a
    set only: with the same candidates in another order, the same fuzzy
    setting and the same transcript, the result is the same. *)
Theorem detection_ignores_candidate_order {V} (env1 env2 : environ)
  (settings1 settings2 : Settings V) (stt : ListenArgs V -> option pystr) :
  (forall w, w ∈ _wake_candidates env1 settings1 <-> w ∈ _wake_candidates env2 settings2) ->
  fuzzy_enabled env1 = fuzzy_enabled env2 ->
  stt (listen_args settings1) = stt (listen_args settings2) ->
  (run stt (wait_for_wake_word env1 settings1)).1
  = (run stt (wait_for_wake_word env2 settings2)).1.
Proof.
  intros Hsame Hfuzzy Hstt.
  destruct (decide (_wake_candidates env1 settings1 = [])) as [Hc1|Hc1].
  - pose proof (same_nil _ _ Hsame Hc1) as Hc2.
    by rewrite (wait_for_wake_word_disabled _ _ Hc1), (wait_for_wake_word_disabled _ _ Hc2).
  - assert (_wake_candidates env2 settings2 <> []) as Hc2.
    { intros Hc2. apply Hc1. eapply same_nil; [|exact Hc2]. intros w. by rewrite Hsame. }
    rewrite !wait_for_wake_word_run by done. cbv zeta. cbn [fst].
    rewrite Hstt, Hfuzzy.
    rewrite (existsb_same _ _ _ Hsame), (fuzzy_words_same _ _ _ Hsame). done.
Qed.

Lemma detection_ignores_candidate_order_witness :
  (run (hears "oye yuri") (wait_for_wake_word (env_of (Some "yuri, hey yui") None)
                             (settings_of "yui"))).1
  = (run (hears "oye yuri") (wait_for_wake_word (env_of (Some "hey yui | yui") None)
                               (settings_of "yuri"))).1.
Proof.
  apply (detection_ignores_candidate_order (env_of (Some "yuri, hey yui") None)
           (env_of (Some "hey yui | yui") None) (settings_of "yui") (settings_of "yuri")
           (hears "oye yuri")).
  - intros w.
    assert (_wake_candidates (env_of (Some "yuri, hey yui") None) (settings_of "yui")
            = [py "yui"; py "yuri"; py "hey yui"]) as -> by (by vm_compute).
    assert (_wake_candidates (env_of (Some "hey yui | yui") None) (settings_of "yuri")
            = [py "yuri"; py "hey yui"; py "yui"]) as -> by (by vm_compute).
    rewrite !elem_of_cons, !elem_of_nil. tauto.
  - by vm_compute.
  - reflexivity.
Defined.

(** X25. Detection does not see the case of the transcript: a transcript
    and its lowercase form are heard alike. *)
Theorem detection_ignores_case {V} (env : environ) (settings : Settings V)
  (stt1 stt2 : ListenArgs V -> option pystr) (original : pystr) :
  stt1 (listen_args settings) = Some original ->
  stt2 (listen_args settings) = Some (lower original) ->
  heard (run stt1 (wait_for_wake_word env settings)).1
  = heard (run stt2 (wait_for_wake_word env settings)).1.
Proof.
  intros Hstt1 Hstt2.
  destruct (decide (_wake_candidates env settings = [])) as [Hc|Hc].
  - by rewrite (wait_for_wake_word_disabled _ _ Hc).
  - rewrite !wait_for_wake_word_run by done. cbv zeta. cbn [fst].
    rewrite Hstt1, Hstt2.
    assert (_normalize (Some (lower original)) = _normalize (Some original)) as ->
      by (by rewrite !_normalize_eq, !or_else_some, strip_lower, lower_lower).
    destruct original as [|c original]; [done|]. cbn [lower map truthy negb].
    by destruct (existsb _ _).
Qed.

Lemma detection_ignores_case_witness :
  heard (run (hears "OYE Yui") (wait_for_wake_word (env_of None None) (settings_of "yui"))).1
  = heard (run (hears "oye yui") (wait_for_wake_word (env_of None None) (settings_of "yui"))).1.
Proof.
  apply (detection_ignores_case (env_of None None) (settings_of "yui")
           (hears "OYE Yui") (hears "oye yui") (py "OYE Yui")); reflexivity.
Defined.
